(** * Thermal_plot_code_V3.py: resampling, compliance and deck report

    A shallow embedding of the analysis core of the thermal plot script:
    cleaning of one component's samples, the call of the interpolation
    routine on the shared fine grid, the compliance margins and report
    rows, the grouping of components into decks, the window envelopes and
    the choice of the Y-axis range of every figure.

    Modelling choices.
    - A float64 is an exact rational [Q]; NaN (a blank or non-numeric cell
      after [pd.to_numeric(errors='coerce')]) is [None].
    - The text file and the console are explicit state: the chunks passed
      to [report_file.write], the lines passed to [print], and one record
      per [savefig].  An uncaught Python exception stops the run and keeps
      what was written so far.
    - [scipy.interpolate.pchip_interpolate] and Python's fixed-point float
      formatting are library routines: they are Section variables.
    - Fonts, colours, legends, folders and the placement of the axis ticks
      are not modelled.  The tick computations ([np.arange] at lines
      219-228, 238-247, 270-273, 281, 370-372, 381-389, 403-406, 416,
      429-432 and 442) can raise on their own (a tick interval of 0, a
      range too wide for the memory): a run of the script is a run of this
      model, or such a run cut short at one of these lines, with what was
      printed, written and saved up to there. *)

From Stdlib Require Import List String Ascii Bool Arith ZArith QArith Qround Qabs Lia.
From Stdlib Require Import DecimalString Sorted Permutation.
Import ListNotations.

Open Scope string_scope.

(** ** Strings *)

Definition nl : string := String (ascii_of_nat 10) "".

(** [c * n] for a one-character string. *)
Fixpoint str_mul (c : ascii) (n : nat) : string :=
  match n with
  | O => ""
  | S n' => String c (str_mul c n')
  end.

(** The format spec [:<n]: pad with blanks on the right, never truncate. *)
Definition ljust (n : nat) (s : string) : string :=
  s ++ str_mul " "%char (n - String.length s).

(** [s.split(sep)[0]] for a non-empty [sep]: the part of [s] before the
    first occurrence of [sep], all of [s] when there is none. *)
Fixpoint split_head (sep s : string) : string :=
  if prefix sep s then ""
  else match s with
       | EmptyString => ""
       | String c s' => String c (split_head sep s')
       end.

(** [s.replace(a, b)] for one-character [a] and [b]. *)
Fixpoint replace_char (a b : ascii) (s : string) : string :=
  match s with
  | EmptyString => ""
  | String c s' => String (if Ascii.eqb c a then b else c) (replace_char a b s')
  end.

Definition mem_string (x : string) (l : list string) : bool :=
  existsb (String.eqb x) l.

(** [d[k]] guarded by [k in d], for a dict kept as an association list. *)
Fixpoint lookup {A : Type} (k : string) (d : list (string * A)) : option A :=
  match d with
  | [] => None
  | (k', v) :: d' => if String.eqb k k' then Some v else lookup k d'
  end.

(** ** Deck grouping (source lines 300-306) *)

Definition display_name_of (component_name : string) : string :=
  split_head ".T" component_name.

Definition deck_prefix_of (component_name : string) : string :=
  split_head "_" (display_name_of component_name).

(** [deck_groups[deck_prefix].append(component_name)] on an insertion-ordered
    dict: an existing key keeps its place, a new key goes last. *)
Fixpoint dict_append (deck_prefix component_name : string)
    (deck_groups : list (string * list string)) : list (string * list string) :=
  match deck_groups with
  | [] => [(deck_prefix, [component_name])]
  | (d, members) :: rest =>
      if String.eqb deck_prefix d
      then (d, (members ++ [component_name])%list) :: rest
      else (d, members) :: dict_append deck_prefix component_name rest
  end.

Definition deck_groups_from (acc : list (string * list string))
    (all_component_names : list string) : list (string * list string) :=
  fold_left (fun groups component_name =>
               dict_append (deck_prefix_of component_name) component_name groups)
            all_component_names acc.

Definition deck_groups (all_component_names : list string)
    : list (string * list string) :=
  deck_groups_from [] all_component_names.

(** The values of a list in first-seen order, each once. *)
Fixpoint first_seen (l : list string) : list string :=
  match l with
  | [] => []
  | x :: l' => x :: filter (fun y => negb (String.eqb y x)) (first_seen l')
  end.

Definition members_of (deck : string) (names : list string) : list string :=
  filter (fun n => String.eqb (deck_prefix_of n) deck) names.

(** The grouping as the specification words it: decks in first-seen order,
    each with its members in first-seen order. *)
Definition grouped (names : list string) : list (string * list string) :=
  map (fun d => (d, members_of d names))
      (first_seen (map deck_prefix_of names)).

(** ** Numbers and arrays *)

Definition Qge_bool (a b : Q) : bool := Qle_bool b a.

(** [np.min] and [np.max] of a flat array; [None] is numpy's ValueError on
    a zero-size array. *)
Definition np_min (v : list Q) : option Q :=
  match v with
  | [] => None
  | x :: r => Some (fold_left (fun m y => if Qle_bool m y then m else y) r x)
  end.

Definition np_max (v : list Q) : option Q :=
  match v with
  | [] => None
  | x :: r => Some (fold_left (fun m y => if Qle_bool y m then m else y) r x)
  end.

(** [np.floor(x / 5) * 5] and [np.ceil(x / 5) * 5]. *)
Definition floor5 (x : Q) : Q := (inject_Z (Qfloor (x / 5)) * 5)%Q.
Definition ceil5 (x : Q) : Q := (inject_Z (Qceiling (x / 5)) * 5)%Q.

(** [np.arange(i, i + n)]. *)
Fixpoint arange (i : Z) (n : nat) : list Z :=
  match n with
  | O => []
  | S n' => i :: arange (i + 1) n'
  end.

(** [np.linspace(start, stop, num)]: [arange(0, num) * step + start]. *)
Definition linspace (start stop : Q) (num : nat) : list Q :=
  let step := ((stop - start) / inject_Z (Z.of_nat (num - 1)))%Q in
  map (fun i => (inject_Z i * step + start)%Q) (arange 0 num).

(** [np.where(time_fine >= t0)[0][0]]: the first index whose value is at
    least [t0]; [None] is the IndexError when there is none. *)
Fixpoint first_index_ge (t0 : Q) (time_fine : list Q) : option nat :=
  match time_fine with
  | [] => None
  | t :: rest =>
      if Qge_bool t t0 then Some O
      else option_map S (first_index_ge t0 rest)
  end.

(** [a[mask]] for the mask [(time_fine >= t0) & (time_fine <= t1)]. *)
Fixpoint masked (t0 t1 : Q) (time_fine a : list Q) : list Q :=
  match time_fine, a with
  | t :: time_fine', x :: a' =>
      if Qge_bool t t0 && Qle_bool t t1
      then x :: masked t0 t1 time_fine' a'
      else masked t0 t1 time_fine' a'
  | _, _ => []
  end.

(** ** The loaded tables *)

(** [data_df] after loading: the 'Time, min' column and the component
    columns in file order, row by row. *)
Record data_frame : Type := {
  time_min : list (option Q);
  columns : list (string * list (option Q))
}.

Definition all_component_names (data_df : data_frame) : list string :=
  map fst (columns data_df).

Definition column (data_df : data_frame) (component_name : string)
    : list (option Q) :=
  match lookup component_name (columns data_df) with
  | Some c => c
  | None => []
  end.

(** One row of [limits_map]. *)
Record limit_record : Type := {
  Acceptance_Min : Q;
  Acceptance_Max : Q;
  Design_Min : Q;
  Design_Max : Q
}.

(** What [parse_range] returns for a Y range. *)
Inductive yrange : Type :=
| Auto
| Fixed (lo hi : Q).

(** The settings the analysis reads.  The zoom windows are indexed with
    [[0]] and [[1]] by the script, so they are pairs; the manual Y limits
    are used as pairs as well. *)
Record config : Type := {
  generate_individual_plots : bool;
  excluded_components : list string;
  manual_ylimits : list (string * (Q * Q));
  full_plot_y_range : yrange;
  zoom_plot_y_range : yrange;
  deck_plot_y_range : yrange;
  deck_zoom_plot_y_range : yrange;
  deck_last_orbit_plot_y_range : yrange;
  zoom_plot_x_range : Q * Q;
  deck_zoom_plot_x_range : Q * Q;
  deck_last_orbit_plot_x_range : Q * Q
}.

(** ** Cleaning of one component (lines 195-198 and 333-335) *)

(** [temp_df.dropna()]: the rows whose time and value are both valid. *)
Fixpoint dropna (rows : list (option Q * option Q)) : list (Q * Q) :=
  match rows with
  | [] => []
  | (Some t, Some v) :: rows' => (t, v) :: dropna rows'
  | _ :: rows' => dropna rows'
  end.

(** [temp_df.sort_values(by='Time, min')] as an insertion sort that keeps
    rows of equal time in their order.  The order pandas gives to rows of
    equal time depends on its sort kind, and the default one, quicksort,
    promises none: the model fixes the stable order; a table without a
    repeated time is sorted by pandas as it is here, whatever the sort
    kind. *)
Fixpoint insert_row (r : Q * Q) (l : list (Q * Q)) : list (Q * Q) :=
  match l with
  | [] => [r]
  | r' :: l' =>
      if Qle_bool (fst r) (fst r') then r :: l
      else r' :: insert_row r l'
  end.

Fixpoint sort_values (rows : list (Q * Q)) : list (Q * Q) :=
  match rows with
  | [] => []
  | r :: rows' => insert_row r (sort_values rows')
  end.

Definition temp_df_of (data_df : data_frame) (component_name : string)
    : list (Q * Q) :=
  dropna (combine (time_min data_df) (column data_df component_name)).

(** The rows handed to the interpolation on the individual-plot path. *)
Definition cleaned_individual (data_df : data_frame) (component_name : string)
    : list (Q * Q) :=
  sort_values (temp_df_of data_df component_name).

(** The rows handed to the interpolation on the deck and report path. *)
Definition cleaned_deck (data_df : data_frame) (component_name : string)
    : list (Q * Q) :=
  temp_df_of data_df component_name.

(** ** The fine grid (lines 179-180) *)

Definition num_interp_points : nat := 5000.

Definition valid_times (data_df : data_frame) : list Q :=
  flat_map (fun t => match t with Some q => [q] | None => [] end)
           (time_min data_df).

(** Without a single valid time the grid is never read: no component then
    has two valid rows. *)
Definition time_fine (data_df : data_frame) : list Q :=
  match np_min (valid_times data_df), np_max (valid_times data_df) with
  | Some lo, Some hi => linspace lo hi num_interp_points
  | _, _ => []
  end.

(** ** Output state and exceptions *)

Inductive window : Type :=
| FullProfile
| ZoomedProfile
| DeckFull
| DeckZoomed
| DeckLastOrbit.

(** One [savefig]: which plot, of which component or deck, with which
    [set_ylim]. *)
Record figure : Type := {
  fig_window : window;
  fig_entity : string;
  fig_ylim : Q * Q
}.

Record out : Type := {
  report_file : list string;
  console : list string;
  saved : list figure
}.

Definition empty_out : out :=
  {| report_file := []; console := []; saved := [] |}.

Inductive exn : Type :=
| ZeroSizeReduction
| IndexOutOfBounds
| InterpolationError.

Inductive res (A : Type) : Type :=
| Done (a : A)
| Raised (e : exn).
Arguments Done {A} a.
Arguments Raised {A} e.

Definition M (A : Type) : Type := out -> out * res A.

Definition ret {A : Type} (a : A) : M A := fun s => (s, Done a).

Definition bind {A B : Type} (m : M A) (k : A -> M B) : M B :=
  fun s => match m s with
           | (s', Done a) => k a s'
           | (s', Raised e) => (s', Raised e)
           end.

Definition raise {A : Type} (e : exn) : M A := fun s => (s, Raised e).

Definition write (chunk : string) : M unit :=
  fun s => ({| report_file := (report_file s ++ [chunk])%list;
               console := console s;
               saved := saved s |}, Done tt).

Definition print (line : string) : M unit :=
  fun s => ({| report_file := report_file s;
               console := (console s ++ [line])%list;
               saved := saved s |}, Done tt).

Definition savefig (w : window) (entity : string) (ylim : Q * Q) : M unit :=
  fun s => ({| report_file := report_file s;
               console := console s;
               saved := (saved s ++ [{| fig_window := w;
                                         fig_entity := entity;
                                         fig_ylim := ylim |}])%list |}, Done tt).

Definition of_option {A : Type} (e : exn) (o : option A) : M A :=
  match o with
  | Some a => ret a
  | None => raise e
  end.

Notation "x <- m ;; k" := (bind m (fun x => k))
  (at level 61, m at next level, right associativity).
Notation "m ;; k" := (bind m (fun _ => k))
  (at level 61, right associativity).

(** A [for] loop that threads a value through its body. *)
Fixpoint for_acc {A B : Type} (body : A -> B -> M B) (l : list A) (acc : B)
    : M B :=
  match l with
  | [] => ret acc
  | x :: l' => acc' <- body x acc ;; for_acc body l' acc'
  end.

Fixpoint for_each {A : Type} (body : A -> M unit) (l : list A) : M unit :=
  match l with
  | [] => ret tt
  | x :: l' => body x ;; for_each body l'
  end.

(** *** What a computation adds to the output

    No computation of the script reads back what it wrote: each one only
    appends to the report, the console and the saved figures. *)

Definition out_app (s d : out) : out :=
  {| report_file := (report_file s ++ report_file d)%list;
     console := (console s ++ console d)%list;
     saved := (saved s ++ saved d)%list |}.

(** [m] appends [d] and ends with [r], whatever the output was before. *)
Definition emits {A : Type} (m : M A) (d : out) (r : res A) : Prop :=
  forall s, m s = (out_app s d, r).

(** [m] appends an output that satisfies [P] and, when it returns, its
    value satisfies [Post]. *)
Definition writer (P : out -> Prop) {A : Type} (Post : A -> Prop) (m : M A)
    : Prop :=
  exists d r, emits m d r /\ P d
              /\ match r with Done a => Post a | Raised _ => True end.

Definition any {A : Type} (_ : A) : Prop := True.

Definition no_report (d : out) : Prop := report_file d = [].
Definition no_console (d : out) : Prop := console d = [].

(** ** The analysis (lines 183-451) *)

Section Analysis.

(** [pchip_interpolate(xi, yi, x)] of scipy; [None] when it raises. *)
Variable pchip_interpolate : list Q -> list Q -> list Q -> option (list Q).

(** [f"{x:.{prec}f}"] of Python. *)
Variable format_f : nat -> Q -> string.

(** The module-level globals of the script. *)
Variable cfg : config.
Variable data_df : data_frame.
Variable limits_map : list (string * limit_record).

(** *** Y-axis range of a full-profile plot (lines 236-247 and 379-389) *)

Definition auto_ylim (lo hi : Q) : Q * Q := (floor5 lo, ceil5 hi).

Definition choose_ylim (entity : string) (default : yrange) (warning : string)
    (lo hi : Q) : M (Q * Q) :=
  match lookup entity (manual_ylimits cfg) with
  | Some manual => ret manual
  | None =>
      match default with
      | Fixed a b =>
          if Qge_bool lo a && Qle_bool hi b then ret (a, b)
          else print warning ;; ret (auto_ylim lo hi)
      | Auto => print warning ;; ret (auto_ylim lo hi)
      end
  end.

Definition component_warning (component_name : string) : string :=
  "  WARNING: Data for '" ++ component_name
  ++ "' exceeds default Y-limits. Auto-adjusting.".

Definition deck_warning (deck_name : string) : string :=
  "  WARNING: Data for deck '" ++ deck_name
  ++ "' exceeds default Y-limits. Auto-adjusting.".

Definition skipping_message (component_name : string) : string :=
  "  SKIPPING: Not enough valid data points for '" ++ component_name ++ "'.".

(** *** Individual plots (lines 186-292)

    The computations that can stop the plotting of a component, in the
    order of the script, without those of the tick placement (lines
    218-228, 238, 241, 247, 270-273 and 281). *)

Definition in_window (t0 t1 t : Q) : bool := Qge_bool t t0 && Qle_bool t t1.

Definition individual_plots (component_name : string) : M unit :=
  let temp_df := cleaned_individual data_df component_name in
  if (List.length temp_df <? 2)%nat then print (skipping_message component_name)
  else
    let local_time_minutes := map fst temp_df in
    let component_data_raw := map snd temp_df in
    component_data_interp <-
      of_option InterpolationError
        (pchip_interpolate local_time_minutes component_data_raw
                           (time_fine data_df)) ;;
    sim_min <- of_option ZeroSizeReduction (np_min component_data_interp) ;;
    sim_max <- of_option ZeroSizeReduction (np_max component_data_interp) ;;
    ylim <- choose_ylim component_name (full_plot_y_range cfg)
              (component_warning component_name) sim_min sim_max ;;
    savefig FullProfile component_name ylim ;;
    let '(t0, t1) := zoom_plot_x_range cfg in
    if negb (existsb (in_window t0 t1) (time_fine data_df)) then ret tt
    else
      let data_zoomed_interp :=
        masked t0 t1 (time_fine data_df) component_data_interp in
      let data_zoomed_raw :=
        map snd (filter (fun r => in_window t0 t1 (fst r)) temp_df) in
      match data_zoomed_raw with
      | [] => ret tt
      | _ :: _ =>
          lo <- of_option ZeroSizeReduction (np_min data_zoomed_interp) ;;
          hi <- of_option ZeroSizeReduction (np_max data_zoomed_interp) ;;
          savefig ZoomedProfile component_name (auto_ylim lo hi)
      end.

(** *** Compliance of one component (lines 352-362) *)

Definition hot_margin (limits : limit_record) (sim_max : Q) : Q :=
  (Acceptance_Max limits - sim_max)%Q.

Definition cold_margin (limits : limit_record) (sim_min : Q) : Q :=
  (sim_min - Acceptance_Min limits)%Q.

Definition status (limits : limit_record) (sim_min sim_max : Q) : string :=
  if Qge_bool (hot_margin limits sim_max) 0
     && Qge_bool (cold_margin limits sim_min) 0
  then "PASS" else "FAIL".

Definition row_name (display_name : string) : string :=
  ljust 25 (replace_char "_"%char " "%char display_name).

Definition sim_range_str (sim_min sim_max : Q) : string :=
  "[" ++ ljust 6 (format_f 1 sim_min) ++ ", "
      ++ ljust 6 (format_f 1 sim_max) ++ "]".

Definition acc_range_str (limits : limit_record) : string :=
  "[" ++ ljust 6 (format_f 0 (Acceptance_Min limits)) ++ ", "
      ++ ljust 6 (format_f 0 (Acceptance_Max limits)) ++ "]".

Definition limits_row (display_name : string) (limits : limit_record)
    (sim_min sim_max : Q) : string :=
  row_name display_name
  ++ " | " ++ ljust 15 (sim_range_str sim_min sim_max)
  ++ " | " ++ ljust 18 (acc_range_str limits)
  ++ " | " ++ ljust 15 (format_f 2 (hot_margin limits sim_max))
  ++ " | " ++ ljust 10 (status limits sim_min sim_max) ++ nl.

Definition no_limits_row (display_name : string) : string :=
  row_name display_name
  ++ " | " ++ ljust 15 "N/A"
  ++ " | " ++ ljust 18 "N/A"
  ++ " | " ++ ljust 15 "N/A"
  ++ " | " ++ ljust 10 "NO LIMITS" ++ nl.

Definition report_row (component_name : string) (sim_min sim_max : Q)
    : string :=
  let display_name := display_name_of component_name in
  match lookup component_name limits_map with
  | Some limits => limits_row display_name limits sim_min sim_max
  | None => no_limits_row display_name
  end.

(** *** One member of a deck (body of the loop at line 329) *)

(** The series of a component on the deck path: what the interpolation
    routine returns for the cleaned rows on the whole fine grid. *)
Definition series_of (component_name : string) : option (list Q) :=
  let temp_df := cleaned_deck data_df component_name in
  pchip_interpolate (map fst temp_df) (map snd temp_df) (time_fine data_df).

(** A member that is not excluded and keeps two rows or more. *)
Definition contributes (component_name : string) : bool :=
  negb (mem_string component_name (excluded_components cfg))
  && negb (List.length (cleaned_deck data_df component_name) <? 2)%nat.

Definition deck_member (component_name : string)
    (all_interp_data_for_deck : list (list Q)) : M (list (list Q)) :=
  if mem_string component_name (excluded_components cfg)
  then ret all_interp_data_for_deck
  else
    let temp_df := cleaned_deck data_df component_name in
    if (List.length temp_df <? 2)%nat then ret all_interp_data_for_deck
    else
      let local_time_minutes := map fst temp_df in
      let component_data_raw := map snd temp_df in
      component_data_interp <-
        of_option InterpolationError
          (pchip_interpolate local_time_minutes component_data_raw
                             (time_fine data_df)) ;;
      sim_min <- of_option ZeroSizeReduction (np_min component_data_interp) ;;
      sim_max <- of_option ZeroSizeReduction (np_max component_data_interp) ;;
      write (report_row component_name sim_min sim_max) ;;
      ret (all_interp_data_for_deck ++ [component_data_interp])%list.

(** *** One deck (body of the loop at line 315) *)

Definition dashes (n : nat) : string := str_mul "-"%char n.

Definition header : string :=
  ljust 25 "Component" ++ " | " ++ ljust 15 "Sim Range [C]"
  ++ " | " ++ ljust 18 "Accept Range [C]"
  ++ " | " ++ ljust 15 "Hot Margin [C]"
  ++ " | " ++ ljust 10 "Status" ++ nl.

(** [np.min(a[:, start:])] and [np.max(a[:, start:])] of the stacked deck
    data. *)
Definition from_index (start : nat) (a : list (list Q)) : list Q :=
  List.concat (map (skipn start) a).

Definition tail_window_ylim (t0 : Q) (all_interp_data_for_deck : list (list Q))
    : M (Q * Q) :=
  start <- of_option IndexOutOfBounds
             (first_index_ge t0 (time_fine data_df)) ;;
  lo <- of_option ZeroSizeReduction
          (np_min (from_index start all_interp_data_for_deck)) ;;
  hi <- of_option ZeroSizeReduction
          (np_max (from_index start all_interp_data_for_deck)) ;;
  ret (auto_ylim lo hi).

(** The three figures of a deck (lines 366-449), without the computations
    of the tick placement (lines 370-372, 381, 384, 389, 403-406, 416,
    429-432 and 442). *)
Definition deck_plots (deck_name : string)
    (all_interp_data_for_deck : list (list Q)) : M unit :=
  deck_min <- of_option ZeroSizeReduction
                (np_min (List.concat all_interp_data_for_deck)) ;;
  deck_max <- of_option ZeroSizeReduction
                (np_max (List.concat all_interp_data_for_deck)) ;;
  ylim <- choose_ylim deck_name (deck_plot_y_range cfg)
            (deck_warning deck_name) deck_min deck_max ;;
  savefig DeckFull deck_name ylim ;;
  ylim_zoomed <- tail_window_ylim (fst (deck_zoom_plot_x_range cfg))
                   all_interp_data_for_deck ;;
  savefig DeckZoomed deck_name ylim_zoomed ;;
  ylim_last <- tail_window_ylim (fst (deck_last_orbit_plot_x_range cfg))
                 all_interp_data_for_deck ;;
  savefig DeckLastOrbit deck_name ylim_last.

Definition deck_rows (component_list : list string) : M (list (list Q)) :=
  for_acc deck_member component_list [].

Definition process_deck (deck : string * list string) : M unit :=
  let '(deck_name, component_list) := deck in
  print ("Processing Deck: " ++ deck_name ++ "...") ;;
  write (dashes 85 ++ nl) ;;
  write ("Analysis for Deck: " ++ deck_name ++ nl) ;;
  write (dashes 85 ++ nl ++ nl) ;;
  write header ;;
  write (dashes (String.length header) ++ nl) ;;
  all_interp_data_for_deck <- deck_rows component_list ;;
  write nl ;;
  deck_plots deck_name all_interp_data_for_deck.

(** *** The run from line 183 on *)

Definition report_title : list string :=
  [str_mul "="%char 85 ++ nl;
   "SATELLITE THERMAL ANALYSIS REPORT" ++ nl;
   str_mul "="%char 85 ++ nl].

Definition generated_on (now : string) : string :=
  "Generated on: " ++ now ++ nl ++ nl.

(** Lines 184-295. *)
Definition individual_phase : M unit :=
  if generate_individual_plots cfg
  then print (nl ++ "--> Generating individual plots (This may be slow)...") ;;
       for_each individual_plots (all_component_names data_df) ;;
       print "Finished generating individual plots."
  else print (nl ++ "--> Skipping generation of individual plots for a faster run.").

(** The loop at line 315. *)
Definition deck_phase : M unit :=
  for_each process_deck (deck_groups (all_component_names data_df)).

(** [now] is [datetime.now().strftime('%Y-%m-%d %H:%M:%S')] as read at
    line 313. *)
Definition main (now : string) : M unit :=
  individual_phase ;;
  print (nl ++ "--> Grouping components and generating consolidated plots and report...") ;;
  for_each write report_title ;;
  write (generated_on now) ;;
  deck_phase ;;
  print "Finished generating consolidated plots and report.".

(** The text of thermal_report.txt after the run. *)
Definition report_text (now : string) : string :=
  String.concat "" (report_file (fst (main now empty_out))).

End Analysis.

(** ** The Y-axis policy as the specification words it

    A manual override wins; otherwise the configured default range when it
    contains the envelope; otherwise the envelope rounded outward to
    multiples of 5, with a warning (the flag). *)
Definition three_step_policy (manual : option (Q * Q)) (default : yrange)
    (lo hi : Q) : (Q * Q) * bool :=
  match manual with
  | Some m => (m, false)
  | None =>
      match default with
      | Fixed a b =>
          if Qle_bool a lo && Qle_bool hi b then ((a, b), false)
          else (auto_ylim lo hi, true)
      | Auto => (auto_ylim lo hi, true)
      end
  end.

(** What holds of the Y range of a saved figure, by window. *)
Definition fig_ok (cfg : config) (f : figure) : Prop :=
  match fig_window f with
  | FullProfile =>
      exists lo hi,
        fig_ylim f = fst (three_step_policy
                            (lookup (fig_entity f) (manual_ylimits cfg))
                            (full_plot_y_range cfg) lo hi)
  | DeckFull =>
      exists lo hi,
        fig_ylim f = fst (three_step_policy
                            (lookup (fig_entity f) (manual_ylimits cfg))
                            (deck_plot_y_range cfg) lo hi)
  | ZoomedProfile | DeckZoomed | DeckLastOrbit =>
      exists lo hi, fig_ylim f = auto_ylim lo hi
  end.

Definition figs_ok (cfg : config) (d : out) : Prop :=
  Forall (fig_ok cfg) (saved d).

(** ** Instances of the library routines, to run the analysis *)

(** PCHIP on exactly two nodes: the straight line through them, evaluated
    at every requested point.  Other inputs are outside this instance. *)
Definition pchip_two_nodes (xi yi x : list Q) : option (list Q) :=
  match xi, yi with
  | [x0; x1], [y0; y1] =>
      if Qle_bool x1 x0 then None
      else Some (map (fun t => (y0 + (t - x0) * ((y1 - y0) / (x1 - x0)))%Q) x)
  | _, _ => None
  end.

Definition round_half_even (q : Q) : Z :=
  let f := Qfloor q in
  match Qcompare (q - inject_Z f) (1 # 2) with
  | Lt => f
  | Gt => (f + 1)%Z
  | Eq => if Z.even f then f else (f + 1)%Z
  end.

Definition digits (n : Z) : string :=
  NilZero.string_of_uint (N.to_uint (Z.to_N n)).

(** Decimal fixed-point notation with [prec] digits after the point. *)
Definition fixed_point (prec : nat) (q : Q) : string :=
  let scale := (10 ^ Z.of_nat prec)%Z in
  let n := round_half_even (Qabs q * inject_Z scale) in
  let frac := digits (n mod scale) in
  (if Qle_bool 0 q then "" else "-")
  ++ digits (n / scale)
  ++ match prec with
     | O => ""
     | S _ => "." ++ str_mul "0"%char (prec - String.length frac) ++ frac
     end.

(** ** Inputs to run the analysis on *)

(** The limits the script writes for every component when the limits file
    is missing (lines 156-160). *)
Definition default_limits : limit_record :=
  {| Acceptance_Min := -10; Acceptance_Max := 50;
     Design_Min := -15; Design_Max := 55 |}.

Definition demo_cfg : config :=
  {| generate_individual_plots := false;
     excluded_components := [];
     manual_ylimits := [];
     full_plot_y_range := Auto;
     zoom_plot_y_range := Auto;
     deck_plot_y_range := Auto;
     deck_zoom_plot_y_range := Auto;
     deck_last_orbit_plot_y_range := Auto;
     zoom_plot_x_range := (2, 4);
     deck_zoom_plot_x_range := (2, 4);
     deck_last_orbit_plot_x_range := (3, 4) |}.

Definition with_individual_plots (cfg : config) : config :=
  {| generate_individual_plots := true;
     excluded_components := excluded_components cfg;
     manual_ylimits := manual_ylimits cfg;
     full_plot_y_range := full_plot_y_range cfg;
     zoom_plot_y_range := zoom_plot_y_range cfg;
     deck_plot_y_range := deck_plot_y_range cfg;
     deck_zoom_plot_y_range := deck_zoom_plot_y_range cfg;
     deck_last_orbit_plot_y_range := deck_last_orbit_plot_y_range cfg;
     zoom_plot_x_range := zoom_plot_x_range cfg;
     deck_zoom_plot_x_range := deck_zoom_plot_x_range cfg;
     deck_last_orbit_plot_x_range := deck_last_orbit_plot_x_range cfg |}.

(** One component, two samples: -12 at minute 0 and 45 at minute 10. *)
Definition battery_df : data_frame :=
  {| time_min := [Some 0; Some 10];
     columns := [("PWR_Battery.T1", [Some (-12); Some 45])] |}.

Definition battery_limits : list (string * limit_record) :=
  [("PWR_Battery.T1", default_limits)].

(** One component whose first and last cells are blank: its own samples
    are 10 at minute 1 and 20 at minute 2, the time column runs from 0
    to 3. *)
Definition heater_df : data_frame :=
  {| time_min := [Some 0; Some 1; Some 2; Some 3];
     columns := [("PWR_Heater.T2", [None; Some 10; Some 20; None])] |}.

Definition heater_limits : list (string * limit_record) :=
  [("PWR_Heater.T2",
    {| Acceptance_Min := 5; Acceptance_Max := 25;
       Design_Min := 0; Design_Max := 30 |})].

(** Two components of one deck; the second keeps a single valid sample. *)
Definition sparse_df : data_frame :=
  {| time_min := [Some 0; Some 10];
     columns := [("PWR_Battery.T1", [Some (-12); Some 45]);
                 ("PWR_Heater.T2", [Some 5; None])] |}.

(** A deck whose only component keeps a single valid sample. *)
Definition lonely_df : data_frame :=
  {| time_min := [Some 0; Some 10];
     columns := [("THM_Radiator.T1", [Some 5; None])] |}.

(** The rows of [battery_df] in the opposite order. *)
Definition unsorted_df : data_frame :=
  {| time_min := [Some 10; Some 0];
     columns := [("PWR_Battery.T1", [Some 45; Some (-12)])] |}.

(** A deck named "pwr" with a manual Y range and configured zoom ranges. *)
Definition manual_cfg : config :=
  {| generate_individual_plots := true;
     excluded_components := [];
     manual_ylimits := [("pwr", (-100, 100)); ("pwr_battery", (-100, 100))];
     full_plot_y_range := Auto;
     zoom_plot_y_range := Fixed (-100) 100;
     deck_plot_y_range := Auto;
     deck_zoom_plot_y_range := Fixed (-100) 100;
     deck_last_orbit_plot_y_range := Fixed (-100) 100;
     zoom_plot_x_range := (0, 4);
     deck_zoom_plot_x_range := (2, 4);
     deck_last_orbit_plot_x_range := (3, 4) |}.

Definition manual_df : data_frame :=
  {| time_min := [Some 0; Some 10];
     columns := [("pwr_battery", [Some (-12); Some 45])] |}.

(** The series of the two single-component tables with the two-node
    interpolant. *)
Definition battery_series : list Q :=
  match series_of pchip_two_nodes battery_df "PWR_Battery.T1" with
  | Some v => v
  | None => []
  end.

Definition heater_series : list Q :=
  match series_of pchip_two_nodes heater_df "PWR_Heater.T2" with
  | Some v => v
  | None => []
  end.

(** Rows in ascending time. *)
Definition time_le (a b : Q * Q) : Prop := (fst a <= fst b)%Q.

(** The rows of one time stamp, in their order. *)
Definition rows_at (t : Q) (rows : list (Q * Q)) : list (Q * Q) :=
  filter (fun r => Qeq_bool (fst r) t) rows.

(** ** Settings text (lines 84-87 and 109)

    The text is taken as ASCII: a character above 127 counts as neither
    blank nor letter. *)

(** [c.isspace()]. *)
Definition is_space (c : ascii) : bool :=
  let n := nat_of_ascii c in
  ((9 <=? n) && (n <=? 13) || (28 <=? n) && (n <=? 32))%nat.

Fixpoint lstrip (s : string) : string :=
  match s with
  | EmptyString => ""
  | String c s' => if is_space c then lstrip s' else s
  end.

Fixpoint rstrip (s : string) : string :=
  match s with
  | EmptyString => ""
  | String c s' =>
      match rstrip s' with
      | EmptyString => if is_space c then "" else String c ""
      | r => String c r
      end
  end.

(** [s.strip()]. *)
Definition strip (s : string) : string := rstrip (lstrip s).

(** [s.split(sep)] for a one-character [sep]: never the empty list. *)
Fixpoint py_split (sep : ascii) (s : string) : list string :=
  match s with
  | EmptyString => [""]
  | String c s' =>
      if Ascii.eqb c sep then "" :: py_split sep s'
      else match py_split sep s' with
           | piece :: pieces => String c piece :: pieces
           | [] => [String c ""]
           end
  end.

(** [sep.join(items)]. *)
Fixpoint py_join (sep : string) (items : list string) : string :=
  match items with
  | [] => ""
  | [x] => x
  | x :: rest => x ++ sep ++ py_join sep rest
  end.

(** [c.lower()] and [s.lower()]. *)
Definition lower_char (c : ascii) : ascii :=
  let n := nat_of_ascii c in
  if ((65 <=? n) && (n <=? 90))%nat then ascii_of_nat (n + 32) else c.

Fixpoint lower (s : string) : string :=
  match s with
  | EmptyString => ""
  | String c s' => String (lower_char c) (lower s')
  end.

(** Line 109: the items of [exclude_components], stripped, the blank ones
    left out. *)
Definition parse_excluded (exclude_components_str : string) : list string :=
  map strip
      (filter (fun item => negb (String.eqb (strip item) ""))
              (py_split ","%char exclude_components_str)).

(** What [parse_range] returns. *)
Inductive range_value : Type :=
| RangeAuto
| RangeList (values : list Q).

Fixpoint all_some {A : Type} (l : list (option A)) : option (list A) :=
  match l with
  | [] => Some []
  | None :: _ => None
  | Some a :: l' => option_map (cons a) (all_some l')
  end.

(** Lines 84-87; [float] is Python's [float()], [None] its ValueError. *)
Definition parse_range (float : string -> option Q) (config_str : string)
    : option range_value :=
  if String.eqb (lower (strip config_str)) "auto" then Some RangeAuto
  else option_map RangeList
         (all_some (map (fun x => float (strip x))
                        (py_split ","%char config_str))).

Fixpoint count_char (c : ascii) (s : string) : nat :=
  match s with
  | EmptyString => O
  | String c' s' => (if Ascii.eqb c' c then 1 else 0) + count_char c s'
  end.

Definition no_comma (s : string) : Prop := count_char ","%char s = O.

(** ** The members of a deck that reach the report *)

Definition contributing (cfg : config) (data_df : data_frame)
    (component_list : list string) : list string :=
  filter (contributes cfg data_df) component_list.

Definition series_or_nil
    (pchip_interpolate : list Q -> list Q -> list Q -> option (list Q))
    (data_df : data_frame) (component_name : string) : list Q :=
  match series_of pchip_interpolate data_df component_name with
  | Some v => v
  | None => []
  end.

(** The report row of a processed member. *)
Definition row_of
    (pchip_interpolate : list Q -> list Q -> list Q -> option (list Q))
    (format_f : nat -> Q -> string) (data_df : data_frame)
    (limits_map : list (string * limit_record)) (component_name : string)
    : string :=
  let v := series_or_nil pchip_interpolate data_df component_name in
  match np_min v, np_max v with
  | Some sim_min, Some sim_max =>
      report_row format_f limits_map component_name sim_min sim_max
  | _, _ => ""
  end.

(** Which plot of which entity a figure is. *)
Definition fig_key (f : figure) : window * string :=
  (fig_window f, fig_entity f).

(** [demo_cfg] with other deck zoom windows. *)
Definition with_deck_zoom (cfg : config) (window : Q * Q) : config :=
  {| generate_individual_plots := generate_individual_plots cfg;
     excluded_components := excluded_components cfg;
     manual_ylimits := manual_ylimits cfg;
     full_plot_y_range := full_plot_y_range cfg;
     zoom_plot_y_range := zoom_plot_y_range cfg;
     deck_plot_y_range := deck_plot_y_range cfg;
     deck_zoom_plot_y_range := deck_zoom_plot_y_range cfg;
     deck_last_orbit_plot_y_range := deck_last_orbit_plot_y_range cfg;
     zoom_plot_x_range := zoom_plot_x_range cfg;
     deck_zoom_plot_x_range := window;
     deck_last_orbit_plot_x_range := deck_last_orbit_plot_x_range cfg |}.

(** The chunks written for one deck whose members were all processed
    without an exception (lines 317-364). *)
Definition deck_section
    (pchip_interpolate : list Q -> list Q -> list Q -> option (list Q))
    (format_f : nat -> Q -> string) (cfg : config) (data_df : data_frame)
    (limits_map : list (string * limit_record))
    (deck : string * list string) : list string :=
  List.app
    [dashes 85 ++ nl;
     "Analysis for Deck: " ++ fst deck ++ nl;
     dashes 85 ++ nl ++ nl;
     header;
     dashes (String.length header) ++ nl]
    (List.app
       (map (row_of pchip_interpolate format_f data_df limits_map)
            (contributing cfg data_df (snd deck)))
       [nl]).

(** The three figures saved for one deck, without their Y ranges. *)
Definition deck_figures (deck_name : string) : list (window * string) :=
  [(DeckFull, deck_name); (DeckZoomed, deck_name);
   (DeckLastOrbit, deck_name)].

Definition add_report (s : out) (chunks : list string) : out :=
  {| report_file := (report_file s ++ chunks)%list;
     console := console s;
     saved := saved s |}.

(** ** What the Y range of a saved figure is computed from *)

(** The series drawn for a component on the individual-plot path: what the
    interpolation routine returns for the cleaned and sorted rows on the
    whole fine grid (lines 195-206). *)
Definition individual_series
    (pchip_interpolate : list Q -> list Q -> list Q -> option (list Q))
    (data_df : data_frame) (component_name : string) : option (list Q) :=
  let temp_df := cleaned_individual data_df component_name in
  pchip_interpolate (map fst temp_df) (map snd temp_df) (time_fine data_df).

(** The series stacked for a deck once the loop over its members has ended
    (line 340): those of the members that reach the report, in the order
    of the deck. *)
Definition deck_data
    (pchip_interpolate : list Q -> list Q -> list Q -> option (list Q))
    (cfg : config) (data_df : data_frame) (component_list : list string)
    : list (list Q) :=
  map (series_or_nil pchip_interpolate data_df)
      (contributing cfg data_df component_list).

(** [lo] and [hi] are the minimum and the maximum of the values [v]. *)
Definition min_max (v : list Q) (lo hi : Q) : Prop :=
  np_min v = Some lo /\ np_max v = Some hi.

(** Whether the zoomed figure of a component is drawn: the window holds a
    grid point (line 257) and a raw sample of the component (line 261). *)
Definition zoom_drawn (cfg : config) (data_df : data_frame)
    (component_name : string) : bool :=
  existsb (in_window (fst (zoom_plot_x_range cfg))
                     (snd (zoom_plot_x_range cfg))) (time_fine data_df)
  && match filter (fun r => in_window (fst (zoom_plot_x_range cfg))
                                      (snd (zoom_plot_x_range cfg)) (fst r))
                  (cleaned_individual data_df component_name)
     with
     | [] => false
     | _ :: _ => true
     end.

(** [ylim] is the Y range of a deck window that starts at [t0]: the
    minimum and the maximum of the deck's series from the first grid point
    at or after [t0] to the end of the grid (lines 412-414 and 438-440),
    rounded outward. *)
Definition tail_tied (data_df : data_frame) (t0 : Q)
    (all_interp_data_for_deck : list (list Q)) (ylim : Q * Q) : Prop :=
  exists start lo hi,
    first_index_ge t0 (time_fine data_df) = Some start
    /\ min_max (from_index start all_interp_data_for_deck) lo hi
    /\ ylim = auto_ylim lo hi.

(** The Y range of a saved figure, by window, in terms of the series of
    its component or deck. *)
Definition fig_tied
    (pchip_interpolate : list Q -> list Q -> list Q -> option (list Q))
    (cfg : config) (data_df : data_frame) (f : figure) : Prop :=
  match fig_window f with
  | FullProfile =>
      exists interp sim_min sim_max,
        individual_series pchip_interpolate data_df (fig_entity f)
        = Some interp
        /\ min_max interp sim_min sim_max
        /\ fig_ylim f
           = fst (three_step_policy
                    (lookup (fig_entity f) (manual_ylimits cfg))
                    (full_plot_y_range cfg) sim_min sim_max)
  | ZoomedProfile =>
      exists interp lo hi,
        individual_series pchip_interpolate data_df (fig_entity f)
        = Some interp
        /\ min_max (masked (fst (zoom_plot_x_range cfg))
                           (snd (zoom_plot_x_range cfg))
                           (time_fine data_df) interp) lo hi
        /\ fig_ylim f = auto_ylim lo hi
  | DeckFull =>
      exists component_list deck_min deck_max,
        In (fig_entity f, component_list)
           (deck_groups (all_component_names data_df))
        /\ min_max (List.concat (deck_data pchip_interpolate cfg data_df
                                           component_list))
                   deck_min deck_max
        /\ fig_ylim f
           = fst (three_step_policy
                    (lookup (fig_entity f) (manual_ylimits cfg))
                    (deck_plot_y_range cfg) deck_min deck_max)
  | DeckZoomed =>
      exists component_list,
        In (fig_entity f, component_list)
           (deck_groups (all_component_names data_df))
        /\ tail_tied data_df (fst (deck_zoom_plot_x_range cfg))
                     (deck_data pchip_interpolate cfg data_df component_list)
                     (fig_ylim f)
  | DeckLastOrbit =>
      exists component_list,
        In (fig_entity f, component_list)
           (deck_groups (all_component_names data_df))
        /\ tail_tied data_df (fst (deck_last_orbit_plot_x_range cfg))
                     (deck_data pchip_interpolate cfg data_df component_list)
                     (fig_ylim f)
  end.

Definition figs_tied
    (pchip_interpolate : list Q -> list Q -> list Q -> option (list Q))
    (cfg : config) (data_df : data_frame) (d : out) : Prop :=
  Forall (fig_tied pchip_interpolate cfg data_df) (saved d).

(** * Properties *)

(** ** Strings and the deck grouping *)

Lemma prefix_iff (sep s : string) :
  prefix sep s = true <-> exists r, s = sep ++ r.
Proof.
  revert s; induction sep as [|c sep IH]; intros s.
  - split; [intros _; now exists s | intros _; now destruct s].
  - destruct s as [|c' s]; simpl.
    + split; [discriminate | intros [r Hr]; discriminate].
    + destruct (ascii_dec c c') as [->|Hne].
      * rewrite IH. split; intros [r Hr]; exists r.
        -- now rewrite Hr.
        -- now injection Hr.
      * split; [discriminate | intros [r Hr]].
        injection Hr as Hc _. congruence.
Qed.

Lemma split_head_here (sep s : string) :
  prefix sep s = true -> split_head sep s = "".
Proof.
  intros H. destruct s; cbn [split_head]; now rewrite H.
Qed.

Lemma split_head_next (sep : string) (c : ascii) (s : string) :
  prefix sep (String c s) = false ->
  split_head sep (String c s) = String c (split_head sep s).
Proof. intros H. cbn [split_head]. now rewrite H. Qed.

Lemma split_head_found (sep s p r : string) :
  s = p ++ sep ++ r ->
  exists r', s = split_head sep s ++ sep ++ r'
             /\ (String.length (split_head sep s) <= String.length p)%nat.
Proof.
  revert s; induction p as [|c p IH]; intros s ->.
  - exists r. rewrite split_head_here by (apply prefix_iff; now exists r).
    split; [reflexivity | simpl; lia].
  - cbn [append]. destruct (prefix sep (String c (p ++ sep ++ r))) eqn:E.
    + rewrite (split_head_here _ _ E).
      apply prefix_iff in E as [r' Hr']. exists r'.
      split; [exact Hr' | simpl; lia].
    + destruct (IH _ eq_refl) as [r' [Hr' Hlen]]. exists r'.
      rewrite (split_head_next _ _ _ E). cbn [append String.length].
      split; [now rewrite <- Hr' | lia].
Qed.

Lemma split_head_absent (sep s : string) :
  (forall p r, s <> p ++ sep ++ r) -> split_head sep s = s.
Proof.
  induction s as [|c s IH]; intros Hno.
  - cbn [split_head]. now destruct (prefix sep "").
  - assert (E : prefix sep (String c s) = false).
    { destruct (prefix sep (String c s)) eqn:E; [|reflexivity].
      apply prefix_iff in E as [r Hr]. exfalso. now apply (Hno "" r). }
    rewrite (split_head_next _ _ _ E), IH; [reflexivity|].
    intros p r Hp. apply (Hno (String c p) r). simpl. now rewrite Hp.
Qed.

Lemma mem_string_In (x : string) (l : list string) :
  mem_string x l = true <-> In x l.
Proof.
  unfold mem_string. rewrite existsb_exists. split.
  - intros [y [Hy Heq]]. apply String.eqb_eq in Heq. now subst.
  - intros H. exists x. split; [assumption | apply String.eqb_refl].
Qed.

Lemma In_first_seen (x : string) (l : list string) :
  In x (first_seen l) <-> In x l.
Proof.
  induction l as [|a l IH]; simpl; [tauto|].
  rewrite filter_In, IH, negb_true_iff, String.eqb_neq.
  destruct (string_dec a x); [subst; tauto|].
  split; [tauto | intros [H|H]; [contradiction | auto]].
Qed.

Lemma NoDup_first_seen (l : list string) : NoDup (first_seen l).
Proof.
  induction l as [|a l IH]; simpl; constructor.
  - rewrite filter_In, negb_true_iff, String.eqb_neq. tauto.
  - now apply NoDup_filter.
Qed.

Lemma first_seen_snoc (l : list string) (x : string) :
  first_seen (l ++ [x])
  = if mem_string x l then first_seen l else (first_seen l ++ [x])%list.
Proof.
  induction l as [|a l IH]; [reflexivity|].
  cbn [app first_seen]. rewrite IH.
  change (mem_string x (a :: l)) with (String.eqb x a || mem_string x l).
  destruct (mem_string x l); [now rewrite orb_true_r|].
  rewrite orb_false_r, filter_app. simpl.
  destruct (String.eqb x a); simpl; [now rewrite app_nil_r | reflexivity].
Qed.

Lemma dict_append_map (f : string -> list string) (d n : string)
    (L : list string) :
  NoDup L ->
  dict_append d n (map (fun d' => (d', f d')) L)
  = if mem_string d L
    then map (fun d' => (d', if String.eqb d d' then (f d' ++ [n])%list
                             else f d')) L
    else (map (fun d' => (d', f d')) L ++ [(d, [n])])%list.
Proof.
  induction L as [|a L IH]; intros Hnd; [reflexivity|].
  inversion Hnd as [|? ? Hnotin Hnd']; subst.
  cbn [map dict_append].
  change (mem_string d (a :: L)) with (String.eqb d a || mem_string d L).
  destruct (String.eqb d a) eqn:E.
  - apply String.eqb_eq in E; subst a. simpl. f_equal.
    apply map_ext_in. intros d' Hd'.
    destruct (String.eqb d d') eqn:E'; [|reflexivity].
    apply String.eqb_eq in E'. congruence.
  - rewrite (IH Hnd'). simpl.
    destruct (mem_string d L); reflexivity.
Qed.

Lemma grouped_snoc (pre : list string) (n : string) :
  dict_append (deck_prefix_of n) n (grouped pre) = grouped (pre ++ [n]).
Proof.
  unfold grouped.
  rewrite dict_append_map by apply NoDup_first_seen.
  rewrite map_app; cbn [map]. rewrite first_seen_snoc.
  assert (Hmem : mem_string (deck_prefix_of n) (first_seen (map deck_prefix_of pre))
                 = mem_string (deck_prefix_of n) (map deck_prefix_of pre)).
  { apply eq_true_iff_eq. now rewrite !mem_string_In, In_first_seen. }
  rewrite Hmem.
  destruct (mem_string (deck_prefix_of n) (map deck_prefix_of pre)) eqn:E.
  - apply map_ext. intros d. unfold members_of.
    rewrite filter_app. simpl. rewrite String.eqb_sym.
    destruct (String.eqb d (deck_prefix_of n)); [reflexivity|].
    now rewrite app_nil_r.
  - rewrite map_app. cbn [map]. f_equal.
    + apply map_ext_in. intros d Hd. unfold members_of.
      rewrite filter_app. simpl.
      destruct (String.eqb (deck_prefix_of n) d) eqn:E'.
      * apply String.eqb_eq in E'; subst d.
        apply (proj1 (In_first_seen _ _)) in Hd.
        apply (proj2 (mem_string_In _ _)) in Hd. congruence.
      * now rewrite app_nil_r.
    + f_equal. f_equal. unfold members_of. rewrite filter_app. simpl.
      rewrite String.eqb_refl.
      assert (Hnil : filter (fun n0 => String.eqb (deck_prefix_of n0)
                                         (deck_prefix_of n)) pre = []).
      { destruct (filter _ pre) as [|m ms] eqn:F; [reflexivity|].
        assert (Hin : In m (m :: ms)) by now left.
        rewrite <- F in Hin. apply filter_In in Hin as [Hin Hm].
        apply String.eqb_eq in Hm.
        assert (Hc : mem_string (deck_prefix_of n) (map deck_prefix_of pre) = true).
        { apply mem_string_In. rewrite <- Hm. now apply in_map. }
        congruence. }
      now rewrite Hnil.
Qed.

Lemma deck_groups_from_grouped (names pre : list string) :
  deck_groups_from (grouped pre) names = grouped (pre ++ names).
Proof.
  revert pre; induction names as [|n names IH]; intros pre.
  - now rewrite app_nil_r.
  - unfold deck_groups_from in *. cbn [fold_left].
    rewrite grouped_snoc, IH, <- app_assoc. reflexivity.
Qed.

Lemma append_same_length (a b x y : string) :
  a ++ x = b ++ y -> String.length a = String.length b -> a = b.
Proof.
  revert b; induction a as [|c a IH]; intros [|c' b] H Hlen;
    try discriminate; [reflexivity|].
  simpl in H, Hlen. injection H as -> H. f_equal. apply IH; [exact H | lia].
Qed.

(** [split_head] cuts at the first occurrence of the separator. *)
Lemma split_head_first (sep s p r : string) :
  s = p ++ sep ++ r ->
  (forall p' r', s = p' ++ sep ++ r' ->
                 (String.length p <= String.length p')%nat) ->
  split_head sep s = p.
Proof.
  intros Hs Hmin.
  destruct (split_head_found sep s p r Hs) as [r' [Hr' Hlen]].
  apply (append_same_length _ _ (sep ++ r') (sep ++ r)).
  - now rewrite <- Hr'.
  - specialize (Hmin _ _ Hr'). lia.
Qed.

(** C9: the grouping of any list of identifiers lists the decks in
    first-seen order, each deck holding, in first-seen order, exactly the
    identifiers whose deck name is that deck; the deck name is the text
    before the first ".T", cut before its first "_" (the whole text when
    the marker does not occur); the three identifiers of the
    specification's example give PWR with two members, then THM with
    one. *)
Theorem deck_groups_first_seen :
  (forall names, deck_groups names = grouped names)
  /\ (forall name, deck_prefix_of name
                   = split_head "_" (split_head ".T" name))
  /\ (forall sep s p r,
        s = p ++ sep ++ r ->
        (forall p' r', s = p' ++ sep ++ r' ->
                       (String.length p <= String.length p')%nat) ->
        split_head sep s = p)
  /\ (forall sep s, (forall p r, s <> p ++ sep ++ r) -> split_head sep s = s)
  /\ deck_groups ["PWR_Battery.T1"; "PWR_Heater.T2"; "THM_Radiator.T1"]
     = [("PWR", ["PWR_Battery.T1"; "PWR_Heater.T2"]);
        ("THM", ["THM_Radiator.T1"])].
Proof.
  split; [intros names; exact (deck_groups_from_grouped names [])|].
  split; [reflexivity|].
  split; [exact split_head_first|].
  split; [exact split_head_absent | reflexivity].
Qed.

(** ** Minimum and maximum of an array *)

Lemma fold_min_spec (r : list Q) (x : Q) :
  let m := fold_left (fun m y => if Qle_bool m y then m else y) r x in
  In m (x :: r) /\ forall y, In y (x :: r) -> (m <= y)%Q.
Proof.
  revert x; induction r as [|a r IH]; intros x; cbn [fold_left].
  - split; [now left | intros y [<-|[]]; apply Qle_refl].
  - destruct (IH (if Qle_bool x a then x else a)) as [Hin Hle].
    destruct (Qle_bool x a) eqn:E.
    + apply Qle_bool_iff in E. split.
      * destruct Hin as [<-|Hin]; [now left | now right; right].
      * intros y [<-|[<-|Hy]].
        -- apply Hle; now left.
        -- apply Qle_trans with x; [apply Hle; now left | exact E].
        -- apply Hle; now right.
    + assert (Hax : (a <= x)%Q).
      { apply Qlt_le_weak, Qnot_le_lt. intros H.
        apply Qle_bool_iff in H. congruence. }
      split.
      * destruct Hin as [<-|Hin]; [right; now left | now right; right].
      * intros y [<-|[<-|Hy]].
        -- apply Qle_trans with a; [apply Hle; now left | exact Hax].
        -- apply Hle; now left.
        -- apply Hle; now right.
Qed.

Lemma fold_max_spec (r : list Q) (x : Q) :
  let m := fold_left (fun m y => if Qle_bool y m then m else y) r x in
  In m (x :: r) /\ forall y, In y (x :: r) -> (y <= m)%Q.
Proof.
  revert x; induction r as [|a r IH]; intros x; cbn [fold_left].
  - split; [now left | intros y [<-|[]]; apply Qle_refl].
  - destruct (IH (if Qle_bool a x then x else a)) as [Hin Hle].
    destruct (Qle_bool a x) eqn:E.
    + apply Qle_bool_iff in E. split.
      * destruct Hin as [<-|Hin]; [now left | now right; right].
      * intros y [<-|[<-|Hy]].
        -- apply Hle; now left.
        -- apply Qle_trans with x; [exact E | apply Hle; now left].
        -- apply Hle; now right.
    + assert (Hxa : (x <= a)%Q).
      { apply Qlt_le_weak, Qnot_le_lt. intros H.
        apply Qle_bool_iff in H. congruence. }
      split.
      * destruct Hin as [<-|Hin]; [right; now left | now right; right].
      * intros y [<-|[<-|Hy]].
        -- apply Qle_trans with a; [exact Hxa | apply Hle; now left].
        -- apply Hle; now left.
        -- apply Hle; now right.
Qed.

Lemma np_min_spec (v : list Q) (m : Q) :
  np_min v = Some m -> In m v /\ forall y, In y v -> (m <= y)%Q.
Proof.
  destruct v as [|x r]; [discriminate|].
  intros H; injection H as <-. apply fold_min_spec.
Qed.

Lemma np_max_spec (v : list Q) (m : Q) :
  np_max v = Some m -> In m v /\ forall y, In y v -> (y <= m)%Q.
Proof.
  destruct v as [|x r]; [discriminate|].
  intros H; injection H as <-. apply fold_max_spec.
Qed.

Lemma np_min_some (v : list Q) : v <> [] -> exists m, np_min v = Some m.
Proof. destruct v; [congruence | intros _; eexists; reflexivity]. Qed.

Lemma np_max_some (v : list Q) : v <> [] -> exists m, np_max v = Some m.
Proof. destruct v; [congruence | intros _; eexists; reflexivity]. Qed.

(** ** One member of a deck *)

Section MemberProperties.

Variable pchip_interpolate : list Q -> list Q -> list Q -> option (list Q).
Variable format_f : nat -> Q -> string.
Variable cfg : config.
Variable data_df : data_frame.
Variable limits_map : list (string * limit_record).

Local Abbreviation member :=
  (deck_member pchip_interpolate format_f cfg data_df limits_map).
Local Abbreviation series_of := (series_of pchip_interpolate data_df).
Local Abbreviation contributes := (contributes cfg data_df).

Lemma deck_member_skipped (component_name : string)
    (all_interp : list (list Q)) (s : out) :
  contributes component_name = false ->
  member component_name all_interp s = (s, Done all_interp).
Proof.
  unfold contributes, deck_member. intros H.
  destruct (mem_string component_name (excluded_components cfg));
    [reflexivity|].
  destruct (List.length (cleaned_deck data_df component_name) <? 2)%nat;
    [reflexivity | discriminate].
Qed.

Lemma deck_member_processed (component_name : string)
    (all_interp : list (list Q)) (s : out) (interp : list Q) :
  contributes component_name = true ->
  series_of component_name = Some interp ->
  interp <> [] ->
  exists sim_min sim_max,
    np_min interp = Some sim_min /\ np_max interp = Some sim_max
    /\ member component_name all_interp s
       = (fst (write (report_row format_f limits_map component_name
                                 sim_min sim_max) s),
          Done (all_interp ++ [interp])%list).
Proof.
  unfold contributes, series_of, deck_member.
  intros Hc Hs Hne.
  destruct (np_min_some _ Hne) as [lo Hlo].
  destruct (np_max_some _ Hne) as [hi Hhi].
  exists lo, hi. split; [assumption|]. split; [assumption|].
  destruct (mem_string component_name (excluded_components cfg));
    [discriminate|].
  destruct (List.length (cleaned_deck data_df component_name) <? 2)%nat;
    [discriminate|].
  unfold bind. rewrite Hs. cbn [of_option ret].
  rewrite Hlo, Hhi. reflexivity.
Qed.

Lemma status_pass_iff (limits : limit_record) (sim_min sim_max : Q) :
  status limits sim_min sim_max = "PASS"
  <-> (0 <= hot_margin limits sim_max /\ 0 <= cold_margin limits sim_min)%Q.
Proof.
  unfold status, Qge_bool.
  destruct (Qle_bool 0 (hot_margin limits sim_max)) eqn:Eh;
  destruct (Qle_bool 0 (cold_margin limits sim_min)) eqn:Ec; cbn [andb].
  - apply Qle_bool_iff in Eh, Ec. tauto.
  - split; [discriminate | intros [_ H]].
    apply Qle_bool_iff in H. congruence.
  - split; [discriminate | intros [H _]].
    apply Qle_bool_iff in H. congruence.
  - split; [discriminate | intros [H _]].
    apply Qle_bool_iff in H. congruence.
Qed.

Lemma status_values (limits : limit_record) (sim_min sim_max : Q) :
  status limits sim_min sim_max = "PASS"
  \/ status limits sim_min sim_max = "FAIL".
Proof. unfold status. destruct (_ && _); [now left | now right]. Qed.

(** C1: a deck member that has a limit record and is processed gets one
    report row, computed from the minimum and the maximum of its whole
    interpolated series: the hot margin is Acceptance_Max - sim_max, the
    cold margin is sim_min - Acceptance_Min, and the status is PASS exactly
    when both are at least zero and FAIL otherwise.  With limits -10 and 50
    and a simulated range from -12 to 45 the margins are 5 and -2 and the
    status is FAIL. *)
Theorem compliance_margins_and_verdict (component_name : string)
    (limits : limit_record) (all_interp : list (list Q)) (s : out)
    (interp : list Q) :
  contributes component_name = true ->
  series_of component_name = Some interp ->
  interp <> [] ->
  lookup component_name limits_map = Some limits ->
  (exists sim_min sim_max,
     (In sim_min interp /\ forall y, In y interp -> (sim_min <= y)%Q)
     /\ (In sim_max interp /\ forall y, In y interp -> (y <= sim_max)%Q)
     /\ hot_margin limits sim_max = (Acceptance_Max limits - sim_max)%Q
     /\ cold_margin limits sim_min = (sim_min - Acceptance_Min limits)%Q
     /\ (status limits sim_min sim_max = "PASS"
         <-> (0 <= hot_margin limits sim_max
              /\ 0 <= cold_margin limits sim_min)%Q)
     /\ (status limits sim_min sim_max <> "PASS"
         -> status limits sim_min sim_max = "FAIL")
     /\ member component_name all_interp s
        = (fst (write
                  (row_name (display_name_of component_name)
                   ++ " | " ++ ljust 15 (sim_range_str format_f sim_min sim_max)
                   ++ " | " ++ ljust 18 (acc_range_str format_f limits)
                   ++ " | " ++ ljust 15 (format_f 2 (hot_margin limits sim_max))
                   ++ " | " ++ ljust 10 (status limits sim_min sim_max) ++ nl)
                  s),
           Done (all_interp ++ [interp])%list))
  /\ (let limits := {| Acceptance_Min := -10; Acceptance_Max := 50;
                       Design_Min := -15; Design_Max := 55 |} in
      hot_margin limits 45 = 5%Q
      /\ cold_margin limits (-12) = (-2)%Q
      /\ status limits (-12) 45 = "FAIL").
Proof.
  intros Hc Hs Hne Hl. split; [|repeat split; reflexivity].
  destruct (deck_member_processed component_name all_interp s interp Hc Hs Hne)
    as [lo [hi [Hlo [Hhi Hrun]]]].
  exists lo, hi.
  split; [now apply np_min_spec|]. split; [now apply np_max_spec|].
  split; [reflexivity|]. split; [reflexivity|].
  split; [apply status_pass_iff|].
  split; [destruct (status_values limits lo hi); tauto|].
  rewrite Hrun. unfold report_row. rewrite Hl. reflexivity.
Qed.

(** C3: a deck member without a limit record never gets a row with
    numbers or a PASS or FAIL status: the member step writes nothing
    (excluded, too few rows, or the interpolation raised) or exactly the
    row whose three value fields are the text N/A and whose status is the
    text NO LIMITS; it writes that row whenever the member is processed. *)
Theorem no_limits_row_is_not_applicable (component_name : string)
    (all_interp : list (list Q)) (s : out) :
  lookup component_name limits_map = None ->
  let na_row :=
    row_name (display_name_of component_name)
    ++ " | N/A             | N/A                | N/A             | NO LIMITS "
    ++ nl in
  (report_file (fst (member component_name all_interp s)) = report_file s
   \/ report_file (fst (member component_name all_interp s))
      = (report_file s ++ [na_row])%list)
  /\ (forall interp,
        contributes component_name = true ->
        series_of component_name = Some interp ->
        interp <> [] ->
        member component_name all_interp s
        = (fst (write na_row s), Done (all_interp ++ [interp])%list)).
Proof.
  intros Hl na_row.
  assert (Hrow : forall lo hi,
             report_row format_f limits_map component_name lo hi = na_row).
  { intros lo hi. unfold report_row. now rewrite Hl. }
  split.
  - destruct (contributes component_name) eqn:Hc.
    + destruct (series_of component_name) as [interp|] eqn:Hs.
      * destruct interp as [|x interp'] eqn:Hi.
        -- left. unfold deck_member.
           unfold contributes in Hc. apply andb_true_iff in Hc as [H1 H2].
           apply negb_true_iff in H1, H2. rewrite H1, H2.
           unfold series_of in Hs. unfold bind. rewrite Hs. reflexivity.
        -- right.
           destruct (deck_member_processed component_name all_interp s
                       (x :: interp') Hc Hs ltac:(discriminate))
             as [lo [hi [_ [_ Hrun]]]].
           rewrite Hrun, Hrow. reflexivity.
      * left. unfold deck_member.
        unfold contributes in Hc. apply andb_true_iff in Hc as [H1 H2].
        apply negb_true_iff in H1, H2. rewrite H1, H2.
        unfold series_of in Hs. unfold bind. rewrite Hs. reflexivity.
    + left. now rewrite deck_member_skipped.
  - intros interp Hc Hs Hne.
    destruct (deck_member_processed component_name all_interp s interp
                Hc Hs Hne) as [lo [hi [_ [_ Hrun]]]].
    rewrite Hrun, Hrow. reflexivity.
Qed.

End MemberProperties.

(** ** Computations only append *)

Lemma out_app_empty (s : out) : out_app s empty_out = s.
Proof. destruct s. unfold out_app; simpl. now rewrite !app_nil_r. Qed.

Lemma out_app_assoc (a b c : out) :
  out_app (out_app a b) c = out_app a (out_app b c).
Proof. unfold out_app; simpl. now rewrite !app_assoc. Qed.

Section Writers.

Variable P : out -> Prop.
Hypothesis P_empty : P empty_out.
Hypothesis P_app : forall a b, P a -> P b -> P (out_app a b).

Lemma writer_ret {A : Type} (Post : A -> Prop) (a : A) :
  Post a -> writer P Post (ret a).
Proof.
  intros HQ. exists empty_out, (Done a). repeat split; try assumption.
  intros s. unfold ret. now rewrite out_app_empty.
Qed.

Lemma writer_raise {A : Type} (Post : A -> Prop) (e : exn) :
  writer P Post (raise e).
Proof.
  exists empty_out, (Raised e). repeat split; try assumption.
  intros s. unfold raise. now rewrite out_app_empty.
Qed.

Lemma writer_of_option {A : Type} (Post : A -> Prop) (e : exn) (o : option A) :
  (forall a, o = Some a -> Post a) -> writer P Post (of_option e o).
Proof.
  intros HQ. destruct o; [apply writer_ret; now apply HQ | apply writer_raise].
Qed.

Lemma writer_write (Post : unit -> Prop) (chunk : string) :
  P {| report_file := [chunk]; console := []; saved := [] |} ->
  Post tt -> writer P Post (write chunk).
Proof.
  intros H HQ. eexists _, (Done tt). repeat split; [|exact H|exact HQ].
  intros s. unfold write, out_app; simpl. now rewrite !app_nil_r.
Qed.

Lemma writer_print (Post : unit -> Prop) (line : string) :
  P {| report_file := []; console := [line]; saved := [] |} ->
  Post tt -> writer P Post (print line).
Proof.
  intros H HQ. eexists _, (Done tt). repeat split; [|exact H|exact HQ].
  intros s. unfold print, out_app; simpl. now rewrite !app_nil_r.
Qed.

Lemma writer_savefig (Post : unit -> Prop) (w : window) (entity : string)
    (ylim : Q * Q) :
  P {| report_file := []; console := [];
       saved := [{| fig_window := w; fig_entity := entity;
                    fig_ylim := ylim |}] |} ->
  Post tt -> writer P Post (savefig w entity ylim).
Proof.
  intros H HQ. eexists _, (Done tt). repeat split; [|exact H|exact HQ].
  intros s. unfold savefig, out_app; simpl. now rewrite !app_nil_r.
Qed.

Lemma writer_bind {A B : Type} (Post : A -> Prop) (Post' : B -> Prop)
    (m : M A) (k : A -> M B) :
  writer P Post m -> (forall a, Post a -> writer P Post' (k a)) ->
  writer P Post' (bind m k).
Proof.
  intros [d [r [Hm [Hd HQ]]]] Hk. destruct r as [a|e].
  - destruct (Hk a HQ) as [d' [r' [Hk' [Hd' HPost']]]].
    exists (out_app d d'), r'. repeat split; [|now apply P_app|exact HPost'].
    intros s. unfold bind. now rewrite Hm, Hk', out_app_assoc.
  - exists d, (Raised e). repeat split; [|assumption].
    intros s. unfold bind. now rewrite Hm.
Qed.

Lemma writer_for_each {A : Type} (body : A -> M unit) (l : list A) :
  (forall x, writer P any (body x)) -> writer P any (for_each body l).
Proof.
  intros Hb. induction l as [|x l IH]; cbn [for_each].
  - now apply writer_ret.
  - apply writer_bind with (Post := any); [apply Hb | intros _ _; exact IH].
Qed.

Lemma writer_for_acc {A B : Type} (body : A -> B -> M B) (l : list A)
    (acc : B) :
  (forall x a, writer P any (body x a)) -> writer P any (for_acc body l acc).
Proof.
  intros Hb. revert acc. induction l as [|x l IH]; intros acc; cbn [for_acc].
  - now apply writer_ret.
  - apply writer_bind with (Post := any); [apply Hb | intros a _; apply IH].
Qed.

End Writers.

Lemma writer_any {A : Type} (P : out -> Prop) (Post : A -> Prop) (m : M A) :
  writer P Post m -> writer P any m.
Proof.
  intros [d [r [Hm [Hd _]]]]. exists d, r. repeat split; try assumption.
  now destruct r.
Qed.

(** One step through a computation: [side] closes the conditions on the
    appended output and on the returned value, [calls] the computations
    called, by their own lemmas. *)
Ltac writer_step side calls :=
  match goal with
  | |- writer _ _ (bind _ _) =>
      first [ eapply writer_bind;
              [solve [side] | solve [calls] | intros ? ?; cbv beta in *]
            | eapply writer_bind with (Post := any);
              [solve [side] | | intros ? _] ]
  | |- writer _ _ (ret _) => apply writer_ret; solve [side]
  | |- writer _ _ (raise _) => apply writer_raise; solve [side]
  | |- writer _ _ (of_option _ _) => apply writer_of_option; solve [side]
  | |- writer _ _ (write _) => apply writer_write; solve [side]
  | |- writer _ _ (print _) => apply writer_print; solve [side]
  | |- writer _ _ (savefig _ _ _) => apply writer_savefig; solve [side]
  | |- writer _ _ (for_each _ _) =>
      apply writer_for_each; [solve [side] | solve [side] | intros]
  | |- writer _ _ (for_acc _ _ _) =>
      apply writer_for_acc; [solve [side] | solve [side] | intros]
  | |- writer _ _ (if ?b then _ else _) => destruct b
  | |- writer _ _ (match ?x with _ => _ end) => destruct x
  | |- writer _ _ _ => solve [calls]
  end.

Ltac writer_auto side calls := repeat (writer_step side calls).

Ltac trivial_side := first [ exact I | intros; exact I ].

Lemma no_report_app (a b : out) :
  no_report a -> no_report b -> no_report (out_app a b).
Proof. unfold no_report, out_app; simpl. now intros -> ->. Qed.

Lemma no_console_app (a b : out) :
  no_console a -> no_console b -> no_console (out_app a b).
Proof. unfold no_console, out_app; simpl. now intros -> ->. Qed.

Lemma figs_ok_app (cfg : config) (a b : out) :
  figs_ok cfg a -> figs_ok cfg b -> figs_ok cfg (out_app a b).
Proof. unfold figs_ok, out_app; simpl. intros; now apply Forall_app. Qed.

(** ** Rounding outward to multiples of 5 *)

Lemma div5_mul5 (x : Q) : (x / 5 * 5 == x)%Q.
Proof. field. Qed.

Lemma floor5_below (x : Q) : (floor5 x <= x)%Q.
Proof.
  unfold floor5. rewrite <- (div5_mul5 x) at 2.
  apply Qmult_le_compat_r; [apply Qfloor_le | discriminate].
Qed.

Lemma floor5_near (x : Q) : (x < floor5 x + 5)%Q.
Proof.
  unfold floor5.
  assert (H : (x / 5 * 5 < inject_Z (Qfloor (x / 5) + 1) * 5)%Q)
    by (apply Qmult_lt_compat_r; [reflexivity | apply Qlt_floor]).
  rewrite div5_mul5, inject_Z_plus in H.
  eapply Qlt_le_trans; [exact H|]. ring_simplify. apply Qle_refl.
Qed.

Lemma ceil5_above (x : Q) : (x <= ceil5 x)%Q.
Proof.
  unfold ceil5. rewrite <- (div5_mul5 x) at 1.
  apply Qmult_le_compat_r; [apply Qle_ceiling | discriminate].
Qed.

Lemma ceil5_near (x : Q) : (ceil5 x - 5 < x)%Q.
Proof.
  unfold ceil5.
  assert (H : (inject_Z (Qceiling (x / 5) - 1) * 5 < x / 5 * 5)%Q)
    by (apply Qmult_lt_compat_r; [reflexivity | apply Qceiling_lt]).
  rewrite div5_mul5 in H. unfold Z.sub in H. rewrite inject_Z_plus in H.
  eapply Qle_lt_trans; [|exact H]. ring_simplify. apply Qle_refl.
Qed.

(** ** The fine grid *)

Lemma arange_length (i : Z) (n : nat) : List.length (arange i n) = n.
Proof. revert i; induction n; intros i; simpl; [reflexivity | now rewrite IHn]. Qed.

Lemma arange_nth (i : Z) (n k : nat) :
  (k < n)%nat -> nth k (arange i n) 0%Z = (i + Z.of_nat k)%Z.
Proof.
  revert i k; induction n as [|n IH]; intros i k Hk; [lia|].
  destruct k as [|k]; cbn [arange nth]; [lia|].
  rewrite IH by lia. lia.
Qed.

Lemma linspace_length (a b : Q) (n : nat) : List.length (linspace a b n) = n.
Proof. unfold linspace. now rewrite length_map, arange_length. Qed.

Lemma linspace_nth (a b : Q) (n i : nat) :
  (i < n)%nat ->
  nth i (linspace a b n) 0%Q
  = (inject_Z (Z.of_nat i) * ((b - a) / inject_Z (Z.of_nat (n - 1))) + a)%Q.
Proof.
  intros Hi. unfold linspace.
  set (f := fun i : Z =>
              (inject_Z i * ((b - a) / inject_Z (Z.of_nat (n - 1))) + a)%Q).
  rewrite (nth_indep _ 0%Q (f 0%Z)) by now rewrite length_map, arange_length.
  rewrite map_nth, arange_nth by assumption. reflexivity.
Qed.

Lemma dropna_time_valid (times col : list (option Q)) (t v : Q) :
  In (t, v) (dropna (combine times col)) ->
  In t (flat_map (fun o => match o with Some q => [q] | None => [] end) times).
Proof.
  revert col; induction times as [|o times IH]; intros col H; [contradiction|].
  destruct col as [|c col]; [contradiction|].
  cbn [combine dropna flat_map] in *.
  destruct o as [q|]; [|now apply (IH col)].
  destruct c as [w|].
  - destruct H as [H|H]; [injection H as -> _; now left|].
    apply in_or_app; right. now apply (IH col).
  - apply in_or_app; right. now apply (IH col).
Qed.

Lemma string_append_nil_r (s : string) : s ++ "" = s.
Proof. induction s; simpl; congruence. Qed.

Lemma string_append_assoc (a b c : string) : (a ++ b) ++ c = a ++ b ++ c.
Proof. induction a; simpl; congruence. Qed.

Lemma string_concat_cons (x : string) (l : list string) :
  String.concat "" (x :: l) = x ++ String.concat "" l.
Proof. destruct l; simpl; [now rewrite string_append_nil_r | reflexivity]. Qed.

Lemma string_concat_app (l1 l2 : list string) :
  String.concat "" (l1 ++ l2) = String.concat "" l1 ++ String.concat "" l2.
Proof.
  induction l1 as [|x l1 IH]; [reflexivity|].
  change ((x :: l1) ++ l2)%list with (x :: (l1 ++ l2))%list.
  now rewrite !string_concat_cons, IH, string_append_assoc.
Qed.

(** ** The run *)

Section RunProperties.

Variable pchip_interpolate : list Q -> list Q -> list Q -> option (list Q).
Variable format_f : nat -> Q -> string.
Variable cfg : config.
Variable data_df : data_frame.
Variable limits_map : list (string * limit_record).

Local Abbreviation member :=
  (deck_member pchip_interpolate format_f cfg data_df limits_map).
Local Abbreviation deck_step :=
  (process_deck pchip_interpolate format_f cfg data_df limits_map).
Local Abbreviation run :=
  (main pchip_interpolate format_f cfg data_df limits_map).

(** The chooser of the script is the three-step policy; it prints the
    warning exactly when the policy raises its flag. *)
Lemma choose_ylim_policy entity default warning lo hi (s : out) :
  choose_ylim cfg entity default warning lo hi s
  = (if snd (three_step_policy (lookup entity (manual_ylimits cfg))
                               default lo hi)
     then fst (print warning s) else s,
     Done (fst (three_step_policy (lookup entity (manual_ylimits cfg))
                                  default lo hi))).
Proof.
  unfold choose_ylim, three_step_policy, Qge_bool.
  destruct (lookup entity (manual_ylimits cfg)); [reflexivity|].
  destruct default as [|a b]; [reflexivity|].
  destruct (Qle_bool a lo && Qle_bool hi b); reflexivity.
Qed.

Lemma choose_ylim_writer (P : out -> Prop) entity default warning lo hi :
  P empty_out ->
  P {| report_file := []; console := [warning]; saved := [] |} ->
  writer P (fun y => y = fst (three_step_policy
                                (lookup entity (manual_ylimits cfg))
                                default lo hi))
         (choose_ylim cfg entity default warning lo hi).
Proof.
  intros H0 Hw.
  destruct (snd (three_step_policy (lookup entity (manual_ylimits cfg))
                                   default lo hi)) eqn:E.
  - exists {| report_file := []; console := [warning]; saved := [] |},
      (Done (fst (three_step_policy (lookup entity (manual_ylimits cfg))
                                    default lo hi))).
    split; [|split; [exact Hw | reflexivity]].
    intros s. rewrite choose_ylim_policy, E.
    unfold print, out_app; simpl. now rewrite !app_nil_r.
  - exists empty_out,
      (Done (fst (three_step_policy (lookup entity (manual_ylimits cfg))
                                    default lo hi))).
    split; [|split; [exact H0 | reflexivity]].
    intros s. rewrite choose_ylim_policy, E.
    now rewrite out_app_empty.
Qed.

Lemma tail_window_ylim_writer (P : out -> Prop) t0 a :
  P empty_out -> (forall x y, P x -> P y -> P (out_app x y)) ->
  writer P (fun y => exists lo hi, y = auto_ylim lo hi)
         (tail_window_ylim data_df t0 a).
Proof.
  intros H0 Happ. unfold tail_window_ylim.
  writer_auto ltac:(first [ assumption | trivial_side | now eexists _, _ ])
              fail.
Qed.

Ltac fig_side :=
  first [ apply Forall_nil
        | apply figs_ok_app
        | trivial_side
        | unfold figs_ok; simpl; constructor; [|apply Forall_nil];
          unfold fig_ok; simpl; subst; eauto ].

Ltac fig_calls :=
  first [ apply choose_ylim_writer; apply Forall_nil
        | apply tail_window_ylim_writer;
            [apply Forall_nil | apply figs_ok_app] ].

Lemma individual_plots_figs (component_name : string) :
  writer (figs_ok cfg) any
         (individual_plots pchip_interpolate cfg data_df component_name).
Proof. unfold individual_plots. writer_auto fig_side fig_calls. Qed.

Lemma process_deck_figs (deck : string * list string) :
  writer (figs_ok cfg) any (deck_step deck).
Proof.
  unfold process_deck, deck_rows, deck_plots, deck_member.
  destruct deck as [deck_name component_list].
  writer_auto fig_side fig_calls.
Qed.

Lemma main_figs (now : string) : writer (figs_ok cfg) any (run now).
Proof.
  unfold main, individual_phase, deck_phase.
  writer_auto fig_side ltac:(first [ apply individual_plots_figs
                                   | apply process_deck_figs ]).
Qed.

Ltac report_side :=
  first [ reflexivity | apply no_report_app | trivial_side ].

Lemma individual_plots_no_report (component_name : string) :
  writer no_report any
         (individual_plots pchip_interpolate cfg data_df component_name).
Proof.
  unfold individual_plots.
  writer_auto report_side ltac:(apply choose_ylim_writer; reflexivity).
Qed.

Lemma individual_phase_no_report :
  writer no_report any (individual_phase pchip_interpolate cfg data_df).
Proof.
  unfold individual_phase.
  writer_auto report_side ltac:(apply individual_plots_no_report).
Qed.

Lemma deck_member_no_console (component_name : string) (a : list (list Q)) :
  writer no_console any (member component_name a).
Proof.
  unfold deck_member.
  writer_auto ltac:(first [ reflexivity | apply no_console_app
                          | trivial_side ]) fail.
Qed.

Lemma deck_phase_writer :
  writer any any
         (deck_phase pchip_interpolate format_f cfg data_df limits_map).
Proof.
  unfold deck_phase, process_deck, deck_rows, deck_plots, tail_window_ylim,
    deck_member.
  writer_auto trivial_side ltac:(apply choose_ylim_writer; exact I).
Qed.

Lemma deck_member_prints_nothing (component_name : string)
    (a : list (list Q)) (s : out) :
  console (fst (member component_name a s)) = console s.
Proof.
  destruct (deck_member_no_console component_name a) as [d [r [Hm [Hd _]]]].
  rewrite Hm. unfold no_console in Hd. simpl. rewrite Hd. apply app_nil_r.
Qed.

Lemma deck_rows_all_skipped (component_list : list string)
    (acc : list (list Q)) (s : out) :
  (forall c, In c component_list -> contributes cfg data_df c = false) ->
  for_acc member component_list acc s = (s, Done acc).
Proof.
  intros Hall. revert acc s.
  induction component_list as [|c l IH]; intros acc s; [reflexivity|].
  cbn [for_acc]. unfold bind.
  rewrite deck_member_skipped by (apply Hall; now left).
  apply IH. intros c' Hc'. apply Hall. now right.
Qed.

Lemma for_each_raises {A : Type} (body : A -> M unit) (l : list A) (x : A) :
  In x l ->
  (forall s, exists s' e, body x s = (s', Raised e)) ->
  forall s, exists s' e, for_each body l s = (s', Raised e).
Proof.
  intros Hin Hx. induction l as [|y l IH]; [contradiction|].
  intros s. cbn [for_each]. unfold bind.
  destruct Hin as [->|Hin].
  - destruct (Hx s) as [s' [e He]]. rewrite He. now exists s', e.
  - destruct (body y s) as [s1 [[]|e]]; [now apply IH | now exists s1, e].
Qed.

(** C10: when every member of a deck is on the exclusion list or keeps
    fewer than two valid rows, the loop over the members collects no
    series, the deck step raises at the minimum of the empty deck data,
    and the run ends with an exception. *)
Theorem empty_deck_aborts_run (deck_name : string)
    (component_list : list string) (now : string) :
  In (deck_name, component_list) (deck_groups (all_component_names data_df)) ->
  (forall c, In c component_list ->
             mem_string c (excluded_components cfg) = true
             \/ (List.length (cleaned_deck data_df c) < 2)%nat) ->
  (forall s, exists s',
      deck_step (deck_name, component_list) s = (s', Raised ZeroSizeReduction))
  /\ (forall s,
        deck_rows pchip_interpolate format_f cfg data_df limits_map
                  component_list s = (s, Done [])
        /\ deck_plots cfg data_df deck_name [] s
           = (s, Raised ZeroSizeReduction))
  /\ exists s' e, run now empty_out = (s', Raised e).
Proof.
  intros Hin Hall.
  assert (Hskip : forall c, In c component_list ->
                            contributes cfg data_df c = false).
  { intros c Hc. unfold contributes. destruct (Hall c Hc) as [->|Hlt].
    - reflexivity.
    - apply Nat.ltb_lt in Hlt. rewrite Hlt. apply andb_false_r. }
  assert (Hdeck : forall s, exists s',
             deck_step (deck_name, component_list) s
             = (s', Raised ZeroSizeReduction)).
  { intros s. unfold process_deck, deck_rows.
    cbv beta iota delta [bind print write].
    rewrite (deck_rows_all_skipped component_list [] _ Hskip).
    cbv beta iota. unfold deck_plots.
    cbv beta iota delta [bind of_option np_min List.concat raise].
    eexists. reflexivity. }
  split; [exact Hdeck|].
  split; [intros s; split;
          [apply (deck_rows_all_skipped component_list [] s Hskip)
          | reflexivity]|].
  unfold main.
  destruct (individual_phase pchip_interpolate cfg data_df empty_out)
    as [s1 [[]|e]] eqn:E1.
  - unfold bind at 1. rewrite E1.
    cbv beta iota delta [bind print write for_each report_title ret].
    cbv beta iota.
    match goal with
    | |- context [deck_phase _ _ _ _ _ ?s] =>
        destruct (for_each_raises deck_step _ _ Hin
                    (fun s0 => match Hdeck s0 with
                               | ex_intro _ s' H =>
                                   ex_intro _ s' (ex_intro _ _ H)
                               end) s) as [s' [e He]]
    end.
    unfold deck_phase. rewrite He. now exists s', e.
  - unfold bind at 1. rewrite E1. now exists s1, e.
Qed.

(** C5 as amended: the chunks written to the report are, for every
    reading of the clock, either none at all (the run stopped before the
    report was opened) or the three title lines, the line
    "Generated on: <clock>" and a body that does not depend on the clock;
    the report text is the concatenation of these. *)
Theorem report_depends_on_clock_in_one_line :
  exists (written : bool) (body : list string),
    forall now,
      report_file (fst (run now empty_out))
      = (if written then (report_title ++ generated_on now :: body)%list
         else [])
      /\ report_text pchip_interpolate format_f cfg data_df limits_map now
         = (if written
            then String.concat "" report_title ++ generated_on now
                 ++ String.concat "" body
            else "").
Proof.
  destruct individual_phase_no_report as [d1 [r1 [H1 [Hd1 _]]]].
  destruct deck_phase_writer as [d2 [r2 [H2 _]]].
  unfold no_report in Hd1.
  assert (Hfile : exists (written : bool) (body : list string),
             forall now,
               report_file (fst (run now empty_out))
               = (if written
                  then (report_title ++ generated_on now :: body)%list
                  else [])).
  { destruct r1 as [[]|e].
    - exists true, (report_file d2). intros now.
      unfold main. unfold bind at 1. rewrite H1.
      cbv beta iota delta [bind print write for_each report_title ret].
      cbv beta iota. rewrite H2.
      destruct r2 as [[]|e]; cbn [fst report_file out_app empty_out app];
        rewrite Hd1; reflexivity.
    - exists false, []. intros now.
      unfold main. unfold bind at 1. rewrite H1.
      cbn [fst report_file out_app empty_out app]. exact Hd1. }
  destruct Hfile as [written [body Hfile]].
  exists written, body. intros now. split; [apply Hfile|].
  unfold report_text. rewrite Hfile. destruct written; [|reflexivity].
  now rewrite string_concat_app, string_concat_cons.
Qed.

(** C2 as amended: for every deck member that is processed, the
    interpolation routine is asked for values on the whole shared fine
    grid, 5000 points from the smallest to the largest valid time of the
    time column, whatever the component's own first and last valid times
    are (they lie inside that range); the minimum and the maximum fed into
    the report row are taken over all the values the routine returns. *)
Theorem series_evaluated_on_whole_grid (component_name : string)
    (all_interp : list (list Q)) (s : out) (interp : list Q) :
  contributes cfg data_df component_name = true ->
  series_of pchip_interpolate data_df component_name = Some interp ->
  interp <> [] ->
  exists lo hi,
    np_min (valid_times data_df) = Some lo
    /\ np_max (valid_times data_df) = Some hi
    /\ (forall t v, In (t, v) (cleaned_deck data_df component_name) ->
                    (lo <= t /\ t <= hi)%Q)
    /\ time_fine data_df = linspace lo hi 5000
    /\ List.length (time_fine data_df) = 5000%nat
    /\ (nth 0 (time_fine data_df) 0 == lo)%Q
    /\ (nth 4999 (time_fine data_df) 0 == hi)%Q
    /\ pchip_interpolate (map fst (cleaned_deck data_df component_name))
                         (map snd (cleaned_deck data_df component_name))
                         (linspace lo hi 5000) = Some interp
    /\ exists sim_min sim_max,
         (In sim_min interp /\ forall y, In y interp -> (sim_min <= y)%Q)
         /\ (In sim_max interp /\ forall y, In y interp -> (y <= sim_max)%Q)
         /\ member component_name all_interp s
            = (fst (write (report_row format_f limits_map component_name
                                      sim_min sim_max) s),
               Done (all_interp ++ [interp])%list).
Proof.
  intros Hc Hs Hne.
  assert (Hrows : cleaned_deck data_df component_name <> []).
  { unfold contributes in Hc. apply andb_true_iff in Hc as [_ Hlen].
    apply negb_true_iff, Nat.ltb_ge in Hlen.
    destruct (cleaned_deck data_df component_name); [simpl in Hlen; lia|].
    discriminate. }
  assert (Hvalid : forall t v, In (t, v) (cleaned_deck data_df component_name)
                               -> In t (valid_times data_df)).
  { intros t v. apply dropna_time_valid. }
  assert (Hnonempty : valid_times data_df <> []).
  { destruct (cleaned_deck data_df component_name) as [|[t v] rows] eqn:E;
      [congruence|].
    intros Hnil. specialize (Hvalid t v (or_introl eq_refl)).
    now rewrite Hnil in Hvalid. }
  destruct (np_min_some _ Hnonempty) as [lo Hlo].
  destruct (np_max_some _ Hnonempty) as [hi Hhi].
  assert (Hgrid : time_fine data_df = linspace lo hi 5000).
  { unfold time_fine. now rewrite Hlo, Hhi. }
  exists lo, hi.
  split; [assumption|]. split; [assumption|].
  split.
  { intros t v Hin. split.
    - apply (proj2 (np_min_spec _ _ Hlo)). eauto.
    - apply (proj2 (np_max_spec _ _ Hhi)). eauto. }
  split; [assumption|].
  split; [rewrite Hgrid; apply linspace_length|].
  split; [rewrite Hgrid, linspace_nth by lia; simpl; field|].
  split; [rewrite Hgrid, linspace_nth by lia; simpl; field|].
  split; [unfold series_of in Hs; now rewrite <- Hgrid|].
  destruct (deck_member_processed pchip_interpolate format_f cfg data_df
              limits_map component_name all_interp s interp Hc Hs Hne)
    as [sim_min [sim_max [Hmin [Hmax Hrun]]]].
  exists sim_min, sim_max.
  split; [now apply np_min_spec|]. split; [now apply np_max_spec|].
  exact Hrun.
Qed.

End RunProperties.

(** ** Sorting on the individual-plot path *)

Lemma insert_row_perm (r : Q * Q) (l : list (Q * Q)) :
  Permutation (r :: l) (insert_row r l).
Proof.
  induction l as [|r' l IH]; cbn [insert_row]; [reflexivity|].
  destruct (Qle_bool (fst r) (fst r')); [reflexivity|].
  rewrite perm_swap. now constructor.
Qed.

Lemma sort_values_perm (rows : list (Q * Q)) :
  Permutation rows (sort_values rows).
Proof.
  induction rows as [|r rows IH]; cbn [sort_values]; [constructor|].
  rewrite <- insert_row_perm. now constructor.
Qed.

Lemma insert_row_sorted (r : Q * Q) (l : list (Q * Q)) :
  StronglySorted time_le l -> StronglySorted time_le (insert_row r l).
Proof.
  induction 1 as [|r' l Hl IH Hall]; cbn [insert_row].
  - repeat constructor.
  - destruct (Qle_bool (fst r) (fst r')) eqn:E.
    + apply Qle_bool_iff in E. constructor; [now constructor|].
      constructor; [exact E|].
      eapply Forall_impl; [|exact Hall].
      intros x Hx. unfold time_le in *. now apply Qle_trans with (fst r').
    + assert (Hlt : (fst r' <= fst r)%Q).
      { apply Qlt_le_weak, Qnot_le_lt. intros H.
        apply Qle_bool_iff in H. congruence. }
      constructor; [exact IH|].
      eapply Permutation_Forall; [apply insert_row_perm|].
      now constructor.
Qed.

Lemma sort_values_sorted (rows : list (Q * Q)) :
  StronglySorted time_le (sort_values rows).
Proof.
  induction rows as [|r rows IH]; cbn [sort_values]; [constructor|].
  now apply insert_row_sorted.
Qed.

(** Rows already in ascending time are left as they are: on such a table
    the two paths hand the same rows to the interpolation. *)
Lemma sort_values_sorted_id (rows : list (Q * Q)) :
  StronglySorted time_le rows -> sort_values rows = rows.
Proof.
  induction 1 as [|r l Hl IH Hall]; cbn [sort_values]; [reflexivity|].
  rewrite IH. destruct l as [|r' l']; [reflexivity|].
  cbn [insert_row]. inversion Hall as [|? ? Hr _]; subst.
  apply Qle_bool_iff in Hr. now rewrite Hr.
Qed.

Lemma insert_row_rows_at (t : Q) (r : Q * Q) (l : list (Q * Q)) :
  rows_at t (insert_row r l) = rows_at t (r :: l).
Proof.
  induction l as [|r' l IH]; cbn [insert_row]; [reflexivity|].
  destruct (Qle_bool (fst r) (fst r')) eqn:E; [reflexivity|].
  unfold rows_at in *. cbn [filter] in *. rewrite IH.
  destruct (Qeq_bool (fst r) t) eqn:Er; [|reflexivity].
  destruct (Qeq_bool (fst r') t) eqn:Er'; [|reflexivity].
  apply Qeq_bool_iff in Er, Er'.
  assert (H : Qle_bool (fst r) (fst r') = true).
  { apply Qle_bool_iff. rewrite Er, Er'. apply Qle_refl. }
  congruence.
Qed.

(** The sort is stable: rows of one time stamp keep their order. *)
Lemma sort_values_stable (t : Q) (rows : list (Q * Q)) :
  rows_at t (sort_values rows) = rows_at t rows.
Proof.
  induction rows as [|r rows IH]; cbn [sort_values]; [reflexivity|].
  rewrite insert_row_rows_at. unfold rows_at in *. cbn [filter].
  now rewrite IH.
Qed.

(** ** Runs on concrete tables *)

(** The battery table: one processed member with the default limits. *)
Lemma compliance_margins_and_verdict_witness :
  exists sim_min sim_max,
    In sim_min battery_series /\ In sim_max battery_series
    /\ report_file
         (fst (deck_member pchip_two_nodes fixed_point demo_cfg battery_df
                           battery_limits "PWR_Battery.T1" [] empty_out))
       = [limits_row fixed_point "PWR_Battery" default_limits
                     sim_min sim_max].
Proof.
  assert (H1 : contributes demo_cfg battery_df "PWR_Battery.T1" = true)
    by reflexivity.
  assert (H2 : series_of pchip_two_nodes battery_df "PWR_Battery.T1"
               = Some battery_series) by (vm_compute; reflexivity).
  assert (H3 : battery_series <> []) by (vm_compute; discriminate).
  assert (H4 : lookup "PWR_Battery.T1" battery_limits = Some default_limits)
    by reflexivity.
  destruct (compliance_margins_and_verdict pchip_two_nodes fixed_point
              demo_cfg battery_df battery_limits "PWR_Battery.T1"
              default_limits [] empty_out battery_series H1 H2 H3 H4)
    as [[lo [hi [[Hlo _] [[Hhi _] [_ [_ [_ [_ Hrun]]]]]]]] _].
  exists lo, hi. split; [exact Hlo|]. split; [exact Hhi|].
  rewrite Hrun. reflexivity.
Defined.

(** The battery table with an empty limits mapping. *)
Lemma no_limits_row_is_not_applicable_witness :
  report_file
    (fst (deck_member pchip_two_nodes fixed_point demo_cfg battery_df []
                      "PWR_Battery.T1" [] empty_out)) = []
  \/ report_file
       (fst (deck_member pchip_two_nodes fixed_point demo_cfg battery_df []
                         "PWR_Battery.T1" [] empty_out))
     = ["PWR Battery               | N/A             | N/A                | N/A             | NO LIMITS "
        ++ nl].
Proof.
  exact (proj1 (no_limits_row_is_not_applicable pchip_two_nodes fixed_point
                  demo_cfg battery_df [] "PWR_Battery.T1" [] empty_out
                  eq_refl)).
Defined.

(** A deck whose only member keeps one valid row. *)
Lemma empty_deck_aborts_run_witness :
  exists s' e,
    main pchip_two_nodes fixed_point demo_cfg lonely_df battery_limits
         "2026-01-01 00:00:00" empty_out = (s', Raised e).
Proof.
  refine (proj2 (proj2 (empty_deck_aborts_run pchip_two_nodes fixed_point
                          demo_cfg lonely_df battery_limits
                          "THM" ["THM_Radiator.T1"] "2026-01-01 00:00:00"
                          _ _))).
  - left. reflexivity.
  - intros c [<-|[]]. right. vm_compute. lia.
Defined.

(** The heater table: samples at minutes 1 and 2, grid from 0 to 3. *)
Lemma series_evaluated_on_whole_grid_witness :
  List.length (time_fine heater_df) = 5000%nat
  /\ exists lo hi, forall t v,
       In (t, v) (cleaned_deck heater_df "PWR_Heater.T2") ->
       (lo <= t /\ t <= hi)%Q.
Proof.
  assert (H1 : contributes demo_cfg heater_df "PWR_Heater.T2" = true)
    by reflexivity.
  assert (H2 : series_of pchip_two_nodes heater_df "PWR_Heater.T2"
               = Some heater_series) by (vm_compute; reflexivity).
  assert (H3 : heater_series <> []) by (vm_compute; discriminate).
  destruct (series_evaluated_on_whole_grid pchip_two_nodes fixed_point
              demo_cfg heater_df heater_limits "PWR_Heater.T2" []
              empty_out heater_series H1 H2 H3)
    as [lo [hi [_ [_ [Hin [_ [Hlen _]]]]]]].
  split; [exact Hlen | exists lo, hi; exact Hin].
Defined.

(** C2, refuted as stated: the component has samples at minutes 1 and 2
    only (10 and 20), yet its series has a value at each of the 5000 grid
    points between minutes 0 and 3, of which 1666 lie inside its own time
    range; the minimum 0 and the maximum 30 fed into the report row are
    values from outside that range, and the row says FAIL although the
    samples 10 and 20 lie inside the limits 5 and 25. *)
Lemma extrapolated_values_reach_compliance :
  cleaned_deck heater_df "PWR_Heater.T2" = [(1, 10); (2, 20)]
  /\ series_of pchip_two_nodes heater_df "PWR_Heater.T2" = Some heater_series
  /\ List.length heater_series = 5000%nat
  /\ List.length (filter (in_window 1 2) (time_fine heater_df)) = 1666%nat
  /\ option_map Qred (np_min heater_series) = Some 0
  /\ option_map Qred (np_max heater_series) = Some 30
  /\ (forall limits, lookup "PWR_Heater.T2" heater_limits = Some limits ->
                     status limits 10 20 = "PASS")
  /\ report_file
       (fst (deck_member pchip_two_nodes fixed_point demo_cfg heater_df
                         heater_limits "PWR_Heater.T2" [] empty_out))
     = ["PWR Heater                | [0.0   , 30.0  ] | [5     , 25    ]   | -5.00           | FAIL      "
        ++ nl].
Proof.
  split; [vm_compute; reflexivity|].
  split; [vm_compute; reflexivity|].
  split; [vm_compute; reflexivity|].
  split; [vm_compute; reflexivity|].
  split; [vm_compute; reflexivity|].
  split; [vm_compute; reflexivity|].
  split; [|vm_compute; reflexivity].
  intros limits H. injection H as <-. reflexivity.
Qed.

(** C5, refuted as stated: two runs on the same table and settings, one
    second apart, write different report texts. *)
Lemma report_text_changes_with_the_clock :
  report_text pchip_two_nodes fixed_point demo_cfg battery_df battery_limits
              "2026-01-01 00:00:00"
  <> report_text pchip_two_nodes fixed_point demo_cfg battery_df
                 battery_limits "2026-01-01 00:00:01".
Proof. apply String.eqb_neq. vm_compute. reflexivity. Qed.


(** C4 at a failing input: the second component of the deck keeps one
    valid sample; with individual plots switched off the run completes,
    writes no row for it and prints nothing about it, while the
    individual-plot path prints the SKIPPING line for the same table. *)
Theorem deck_path_skip_not_logged :
  List.length (cleaned_deck sparse_df "PWR_Heater.T2") = 1%nat
  /\ main pchip_two_nodes fixed_point demo_cfg sparse_df battery_limits
          "2026-01-01 00:00:00" empty_out
     = (fst (main pchip_two_nodes fixed_point demo_cfg battery_df
                  battery_limits "2026-01-01 00:00:00" empty_out),
        Done tt)
  /\ console (fst (main pchip_two_nodes fixed_point demo_cfg sparse_df
                        battery_limits "2026-01-01 00:00:00" empty_out))
     = [ nl ++ "--> Skipping generation of individual plots for a faster run.";
         nl ++ "--> Grouping components and generating consolidated plots and report...";
         "Processing Deck: PWR...";
         "  WARNING: Data for deck 'PWR' exceeds default Y-limits. Auto-adjusting.";
         "Finished generating consolidated plots and report." ]
  /\ In "  SKIPPING: Not enough valid data points for 'PWR_Heater.T2'."
        (console (fst (main pchip_two_nodes fixed_point
                            (with_individual_plots demo_cfg) sparse_df
                            battery_limits "2026-01-01 00:00:00"
                            empty_out))).
Proof.
  split; [vm_compute; reflexivity|].
  split; [vm_compute; reflexivity|].
  split; [vm_compute; reflexivity|].
  vm_compute. tauto.
Qed.

(** C7 at a failing input: the deck zoom window is from minute 2 to
    minute 4; over the grid points of that window the series stays
    between -5 and 15 after rounding, but the envelope the deck zoom
    figure is scaled with runs from the window start to the end of the
    grid and reaches 45. *)
Theorem deck_zoom_envelope_reads_past_window_end :
  deck_zoom_plot_x_range demo_cfg = (2, 4)
  /\ series_of pchip_two_nodes battery_df "PWR_Battery.T1"
     = Some battery_series
  /\ match np_min (masked 2 4 (time_fine battery_df) battery_series),
           np_max (masked 2 4 (time_fine battery_df) battery_series) with
     | Some lo, Some hi => Some (auto_ylim lo hi)
     | _, _ => None
     end = Some (-5, 15)
  /\ tail_window_ylim battery_df 2 [battery_series] empty_out
     = (empty_out, Done (-5, 45))
  /\ In {| fig_window := DeckZoomed; fig_entity := "PWR";
           fig_ylim := (-5, 45) |}
        (saved (fst (main pchip_two_nodes fixed_point demo_cfg battery_df
                          battery_limits "2026-01-01 00:00:00" empty_out))).
Proof.
  split; [reflexivity|].
  split; [vm_compute; reflexivity|].
  split; [vm_compute; reflexivity|].
  split; [vm_compute; reflexivity|].
  vm_compute. tauto.
Qed.

(** C8 at a failing input: the table lists minute 10 before minute 0.
    The individual-plot path sorts the rows and plots the component; the
    deck path hands the rows over unsorted, the interpolation routine
    rejects the decreasing times and the run ends with its exception. *)
Theorem deck_path_does_not_sort :
  cleaned_individual unsorted_df "PWR_Battery.T1" = [(0, -12); (10, 45)]
  /\ cleaned_deck unsorted_df "PWR_Battery.T1" = [(10, 45); (0, -12)]
  /\ snd (individual_plots pchip_two_nodes demo_cfg unsorted_df
                           "PWR_Battery.T1" empty_out) = Done tt
  /\ snd (main pchip_two_nodes fixed_point demo_cfg unsorted_df
               battery_limits "2026-01-01 00:00:00" empty_out)
     = Raised InterpolationError.
Proof.
  split; [vm_compute; reflexivity|].
  split; [vm_compute; reflexivity|].
  split; vm_compute; reflexivity.
Qed.

(** * Further properties of the script *)

(** ** Deck grouping (lines 300-306) *)

Lemma deck_groups_grouped (names : list string) :
  deck_groups names = grouped names.
Proof. exact (deck_groups_from_grouped names []). Qed.

Lemma grouped_names (names : list string) :
  map fst (grouped names) = first_seen (map deck_prefix_of names).
Proof. unfold grouped. rewrite map_map. simpl. apply map_id. Qed.

Lemma grouped_lookup (names : list string) (d : string) (L : list string) :
  lookup d (map (fun d' => (d', members_of d' names)) L)
  = if mem_string d L then Some (members_of d names) else None.
Proof.
  induction L as [|a L IH]; [reflexivity|].
  cbn [map lookup].
  change (mem_string d (a :: L)) with (String.eqb d a || mem_string d L).
  destruct (String.eqb d a) eqn:E; [|exact IH].
  apply String.eqb_eq in E. now subst.
Qed.

Lemma members_of_nonempty (names : list string) (n : string) :
  In n names -> In n (members_of (deck_prefix_of n) names).
Proof.
  intros H. unfold members_of. apply filter_In. split; [exact H|].
  apply String.eqb_refl.
Qed.

Lemma filter_disjoint_perm {A : Type} (p q : A -> bool) (l : list A) :
  (forall x, In x l -> p x = true -> q x = false) ->
  Permutation (filter (fun x => p x || q x) l) (filter p l ++ filter q l).
Proof.
  induction l as [|a l IH]; intros H; [reflexivity|].
  cbn [filter].
  assert (IH' := IH (fun x Hx => H x (or_intror Hx))).
  destruct (p a) eqn:Ep.
  - rewrite (H a (or_introl eq_refl) Ep). cbn [orb app]. now constructor.
  - cbn [orb]. destruct (q a).
    + apply Permutation_cons_app. exact IH'.
    + exact IH'.
Qed.

Lemma concat_members_perm (names L : list string) :
  NoDup L ->
  Permutation
    (List.concat (map (fun d => members_of d names) L))
    (filter (fun n => mem_string (deck_prefix_of n) L) names).
Proof.
  induction 1 as [|d L Hd Hnd IH].
  - cbn. induction names; [constructor | assumption].
  - cbn [map List.concat].
    rewrite IH.
    assert (Hext : forall n,
               mem_string (deck_prefix_of n) (d :: L)
               = (String.eqb (deck_prefix_of n) d
                  || mem_string (deck_prefix_of n) L)) by reflexivity.
    rewrite (filter_ext _ _ Hext).
    symmetry. apply filter_disjoint_perm.
    intros n _ Hn. apply String.eqb_eq in Hn.
    destruct (mem_string (deck_prefix_of n) L) eqn:E; [|reflexivity].
    apply mem_string_In in E. congruence.
Qed.

Lemma deck_groups_members (names : list string) :
  Forall (fun deck => snd deck <> []
                      /\ snd deck = members_of (fst deck) names
                      /\ In (fst deck) (map deck_prefix_of names))
         (deck_groups names).
Proof.
  rewrite deck_groups_grouped.
  unfold grouped. apply Forall_forall. intros [d ms] Hin.
  apply in_map_iff in Hin as [d' [Heq Hd']]. injection Heq as <- <-.
  apply (proj1 (In_first_seen _ _)) in Hd'. cbn [fst snd].
  split; [|split; [reflexivity | exact Hd']].
  apply in_map_iff in Hd' as [n [Hn Hin]]. subst d'.
  intros Hnil. apply members_of_nonempty in Hin. now rewrite Hnil in Hin.
Qed.

(** X1: the deck names of the grouping are pairwise different, no deck is
    empty, and the members of a deck are exactly the identifiers with that
    deck name, in the order of the identifier list. *)
Theorem deck_groups_well_formed (names : list string) :
  NoDup (map fst (deck_groups names))
  /\ Forall (fun deck => snd deck <> []
                         /\ snd deck = members_of (fst deck) names
                         /\ In (fst deck) (map deck_prefix_of names))
            (deck_groups names).
Proof.
  split; [|apply deck_groups_members].
  rewrite deck_groups_grouped, grouped_names. apply NoDup_first_seen.
Qed.

(** X2: the grouping is a partition of the identifier list: the members
    of all decks together are the identifiers, each as often as it is
    listed. *)
Theorem deck_groups_partition (names : list string) :
  Permutation (List.concat (map snd (deck_groups names))) names.
Proof.
  rewrite deck_groups_grouped. unfold grouped.
  rewrite map_map. cbn [snd].
  rewrite concat_members_perm by apply NoDup_first_seen.
  assert (Hall : forall n, In n names ->
             mem_string (deck_prefix_of n)
                        (first_seen (map deck_prefix_of names)) = true).
  { intros n Hn. apply (proj2 (mem_string_In _ _)).
    apply (proj2 (In_first_seen _ _)). now apply in_map. }
  clear -Hall. revert Hall.
  generalize (first_seen (map deck_prefix_of names)) as L.
  induction names as [|a l IH]; intros L Hall; [constructor|].
  cbn [filter]. rewrite Hall by now left.
  constructor. apply IH. intros n Hn. apply Hall. now right.
Qed.

(** X3: looking a deck name up in the grouping gives the members of that
    deck when some identifier has that deck name, and nothing otherwise. *)
Theorem deck_groups_lookup (names : list string) (deck : string) :
  lookup deck (deck_groups names)
  = if mem_string deck (map deck_prefix_of names)
    then Some (members_of deck names) else None.
Proof.
  rewrite deck_groups_grouped. unfold grouped.
  rewrite grouped_lookup.
  assert (H : mem_string deck (first_seen (map deck_prefix_of names))
              = mem_string deck (map deck_prefix_of names)).
  { apply eq_true_iff_eq. now rewrite !mem_string_In, In_first_seen. }
  now rewrite H.
Qed.

(** ** Settings text (lines 84-87 and 109) *)

Lemma py_split_count (sep : ascii) (s : string) :
  List.length (py_split sep s) = S (count_char sep s).
Proof.
  induction s as [|c s IH]; [reflexivity|].
  cbn [py_split count_char]. destruct (Ascii.eqb c sep).
  - cbn [List.length]. now rewrite IH.
  - destruct (py_split sep s); [discriminate|]. exact IH.
Qed.

Lemma py_split_pieces (sep : ascii) (s : string) :
  Forall (fun piece => count_char sep piece = O) (py_split sep s).
Proof.
  induction s as [|c s IH]; [repeat constructor|].
  cbn [py_split]. destruct (Ascii.eqb c sep) eqn:E.
  - constructor; [reflexivity | exact IH].
  - destruct (py_split sep s) as [|piece pieces].
    + constructor; [|constructor]. cbn [count_char]. now rewrite E.
    + inversion IH; subst. constructor; [|assumption].
      cbn [count_char]. now rewrite E.
Qed.

Lemma py_split_whole (sep : ascii) (s : string) :
  count_char sep s = O -> py_split sep s = [s].
Proof.
  induction s as [|c s IH]; [reflexivity|].
  cbn [py_split count_char]. destruct (Ascii.eqb c sep); [discriminate|].
  intros H. now rewrite IH.
Qed.

Lemma py_split_at (sep : ascii) (a b : string) :
  count_char sep a = O ->
  py_split sep (a ++ String sep b) = a :: py_split sep b.
Proof.
  induction a as [|c a IH]; cbn [append py_split count_char].
  - intros _. now rewrite Ascii.eqb_refl.
  - destruct (Ascii.eqb c sep); [discriminate|].
    intros H. now rewrite IH.
Qed.

Lemma rstrip_idempotent (s : string) : rstrip (rstrip s) = rstrip s.
Proof.
  induction s as [|c s IH]; [reflexivity|].
  cbn [rstrip]. destruct (rstrip s) as [|c' r] eqn:E.
  - destruct (is_space c) eqn:Ec; [reflexivity|].
    cbn [rstrip]. now rewrite Ec.
  - cbn [rstrip]. cbn [rstrip] in IH. rewrite IH. reflexivity.
Qed.

Lemma rstrip_head (c : ascii) (s : string) :
  is_space c = false -> exists r, rstrip (String c s) = String c r.
Proof.
  intros Hc. cbn [rstrip]. destruct (rstrip s).
  - rewrite Hc. now exists "".
  - now eexists.
Qed.

Lemma lstrip_head (s : string) :
  lstrip s = "" \/ exists c r, lstrip s = String c r /\ is_space c = false.
Proof.
  induction s as [|c s IH]; [now left|].
  cbn [lstrip]. destruct (is_space c) eqn:E; [exact IH|].
  right. now exists c, s.
Qed.

Lemma strip_idempotent (s : string) : strip (strip s) = strip s.
Proof.
  unfold strip. destruct (lstrip_head s) as [->|[c [r [-> Hc]]]];
    [reflexivity|].
  destruct (rstrip_head c r Hc) as [r' Hr']. rewrite Hr'.
  cbn [lstrip]. rewrite Hc, <- Hr'. apply rstrip_idempotent.
Qed.

Lemma count_char_lstrip (c : ascii) (s : string) :
  count_char c s = O -> count_char c (lstrip s) = O.
Proof.
  induction s as [|c' s IH]; [reflexivity|].
  cbn [lstrip]. destruct (is_space c'); [|trivial].
  cbn [count_char]. intros H. apply IH. lia.
Qed.

Lemma count_char_rstrip (c : ascii) (s : string) :
  count_char c s = O -> count_char c (rstrip s) = O.
Proof.
  induction s as [|c' s IH]; [reflexivity|].
  cbn [count_char rstrip]. intros H.
  assert (Hs : count_char c (rstrip s) = O) by (apply IH; lia).
  destruct (rstrip s).
  - destruct (is_space c'); [reflexivity|]. cbn [count_char]. lia.
  - cbn [count_char] in *. lia.
Qed.

(** X4: every item of the parsed exclusion list is non-empty, has no blank
    at either end and holds no comma. *)
Theorem parse_excluded_items (exclude_components_str : string) :
  Forall (fun item => item <> "" /\ strip item = item /\ no_comma item)
         (parse_excluded exclude_components_str).
Proof.
  unfold parse_excluded. apply Forall_forall. intros item Hin.
  apply in_map_iff in Hin as [piece [<- Hin]].
  apply filter_In in Hin as [Hin Hne].
  apply negb_true_iff, String.eqb_neq in Hne.
  split; [exact Hne|]. split; [apply strip_idempotent|].
  pose proof (py_split_pieces ","%char exclude_components_str) as Hp.
  rewrite Forall_forall in Hp. specialize (Hp _ Hin).
  unfold no_comma, strip. now apply count_char_rstrip, count_char_lstrip.
Qed.

Lemma py_split_join (names : list string) :
  Forall no_comma names ->
  py_split ","%char (py_join ", " names)
  = match names with
    | [] => [""]
    | x :: rest => x :: map (String " "%char) rest
    end.
Proof.
  induction 1 as [|x rest Hx Hrest IH]; [reflexivity|].
  destruct rest as [|y rest'].
  - cbn [py_join map]. now apply py_split_whole.
  - change (py_join ", " (x :: y :: rest'))
      with (x ++ String ","%char (String " "%char (py_join ", " (y :: rest')))).
    rewrite py_split_at by exact Hx.
    cbn [py_split]. change (Ascii.eqb " " ",") with false. cbn iota.
    rewrite IH. reflexivity.
Qed.

(** X5: a list of names that are non-empty, without a blank at either end
    and without a comma, written as one setting with ", " between the
    names, is parsed back to the same list; the empty setting gives the
    empty list. *)
Theorem parse_excluded_join (names : list string) :
  Forall (fun name => name <> "" /\ strip name = name /\ no_comma name)
         names ->
  parse_excluded (py_join ", " names) = names.
Proof.
  intros H. unfold parse_excluded.
  rewrite py_split_join
    by (eapply Forall_impl; [|exact H]; cbv beta; tauto).
  destruct H as [|x rest [Hx [Hsx _]] Hrest]; [reflexivity|].
  cbn [filter]. rewrite Hsx.
  destruct (String.eqb x "") eqn:E; [apply String.eqb_eq in E; congruence|].
  cbn [negb map]. rewrite Hsx. f_equal.
  induction Hrest as [|y rest' [Hy [Hsy _]] Hrest' IH]; [reflexivity|].
  cbn [map filter].
  assert (Hstrip : strip (String " " y) = y) by exact Hsy.
  rewrite Hstrip.
  destruct (String.eqb y "") eqn:E'; [apply String.eqb_eq in E'; congruence|].
  cbn [negb map]. rewrite Hstrip. now f_equal.
Qed.

Lemma all_some_spec {A B : Type} (f : A -> option B) (l : list A) :
  match all_some (map f l) with
  | Some vs => Forall2 (fun x v => f x = Some v) l vs
  | None => exists x, In x l /\ f x = None
  end.
Proof.
  induction l as [|a l IH]; [constructor|].
  cbn [map all_some]. destruct (f a) as [b|] eqn:E.
  - destruct (all_some (map f l)) as [vs|]; cbn [option_map].
    + now constructor.
    + destruct IH as [x [Hx Hf]]. exists x. split; [now right | exact Hf].
  - exists a. split; [now left | exact E].
Qed.

(** X6: [parse_range] answers "auto" exactly for a text that is the word
    auto in any letter case between blanks; otherwise it fails when
    [float] rejects one of the comma-separated pieces, and else returns one
    number per piece, in order: one more than the text has commas, so never
    the empty list, and a single number for a text without comma. *)
Theorem parse_range_result (float : string -> option Q) (config_str : string) :
  match parse_range float config_str with
  | Some RangeAuto => lower (strip config_str) = "auto"
  | Some (RangeList values) =>
      lower (strip config_str) <> "auto"
      /\ List.length values = S (count_char ","%char config_str)
      /\ Forall2 (fun x v => float (strip x) = Some v)
                 (py_split ","%char config_str) values
  | None =>
      lower (strip config_str) <> "auto"
      /\ exists x, In x (py_split ","%char config_str)
                   /\ float (strip x) = None
  end.
Proof.
  unfold parse_range.
  destruct (String.eqb (lower (strip config_str)) "auto") eqn:E.
  - now apply String.eqb_eq.
  - apply String.eqb_neq in E.
    pose proof (all_some_spec (fun x => float (strip x))
                  (py_split ","%char config_str)) as H.
    destruct (all_some _) as [vs|]; cbn [option_map].
    + split; [exact E|]. split; [|exact H].
      rewrite <- (Forall2_length H). apply py_split_count.
    + split; [exact E | exact H].
Qed.

(** A list of two names for the round trip of the exclusion setting. *)
Lemma parse_excluded_join_witness :
  parse_excluded (py_join ", " ["PWR_Heater.T2"; "THM_Radiator.T1"])
  = ["PWR_Heater.T2"; "THM_Radiator.T1"].
Proof.
  apply parse_excluded_join.
  repeat constructor; try discriminate.
Defined.

(** ** Cleaning and the fine grid (lines 179-180, 195-198, 333-335) *)

(** X7: on the individual-plot path the rows handed to the interpolation
    are in ascending time and are the rows of the deck path, reordered. *)
Theorem individual_rows_sorted (data_df : data_frame)
    (component_name : string) :
  StronglySorted time_le (cleaned_individual data_df component_name)
  /\ Permutation (cleaned_deck data_df component_name)
                 (cleaned_individual data_df component_name).
Proof.
  unfold cleaned_individual, cleaned_deck.
  split; [apply sort_values_sorted | apply sort_values_perm].
Qed.

Lemma dropna_strictly_sorted (times col : list (option Q)) :
  StronglySorted Qlt
    (flat_map (fun o => match o with Some q => [q] | None => [] end) times) ->
  StronglySorted (fun a b : Q * Q => (fst a < fst b)%Q)
                 (dropna (combine times col)).
Proof.
  revert col; induction times as [|o times IH]; intros col H;
    [constructor|].
  destruct col as [|c col]; [constructor|].
  cbn [combine dropna flat_map] in *.
  destruct o as [t|]; [|now apply IH].
  cbn [app] in H. inversion H as [|? ? Hs Hall]; subst.
  destruct c as [v|]; [|now apply IH].
  constructor; [now apply IH|].
  apply Forall_forall. intros [t' v'] Hin.
  rewrite Forall_forall in Hall. cbn [fst].
  apply Hall. eapply dropna_time_valid. exact Hin.
Qed.

(** Rows with pairwise different, ascending times have one ascending
    arrangement only: whatever sorts them by time returns them as they
    are. *)
Lemma ascending_arrangement_unique (rows sorted_rows : list (Q * Q)) :
  StronglySorted (fun a b : Q * Q => (fst a < fst b)%Q) rows ->
  Permutation rows sorted_rows ->
  StronglySorted time_le sorted_rows ->
  sorted_rows = rows.
Proof.
  intros Hs. revert sorted_rows.
  induction Hs as [|r rest Hrest IH Hall]; intros l' Hperm Hsorted.
  - now apply Permutation_nil.
  - destruct l' as [|h t].
    + apply Permutation_sym, Permutation_nil in Hperm. discriminate.
    + assert (Hh : In h (r :: rest))
        by (apply (Permutation_in h (Permutation_sym Hperm)); now left).
      inversion Hsorted as [|? ? Ht Hle]; subst.
      destruct Hh as [<-|Hh].
      * f_equal. apply IH; [|exact Ht].
        now apply Permutation_cons_inv with r.
      * exfalso. rewrite Forall_forall in Hall, Hle.
        specialize (Hall h Hh).
        assert (Hr : In r (h :: t))
          by (apply (Permutation_in r Hperm); now left).
        destruct Hr as [->|Hr].
        -- now apply (Qlt_irrefl (fst r)).
        -- specialize (Hle r Hr). unfold time_le in Hle.
           now apply (Qlt_not_le _ _ Hall).
Qed.

(** X8: when the valid times of the time column are strictly ascending
    (no time twice), both paths hand the same rows to the interpolation,
    for every component; this holds of every way of sorting by time, since
    any ascending arrangement of the cleaned rows is then the cleaned rows
    themselves. *)
Theorem paths_agree_on_ascending_times (data_df : data_frame)
    (component_name : string) :
  StronglySorted Qlt (valid_times data_df) ->
  cleaned_individual data_df component_name
  = cleaned_deck data_df component_name
  /\ forall sorted_rows,
       Permutation (cleaned_deck data_df component_name) sorted_rows ->
       StronglySorted time_le sorted_rows ->
       sorted_rows = cleaned_deck data_df component_name.
Proof.
  intros H.
  assert (Hs : StronglySorted (fun a b : Q * Q => (fst a < fst b)%Q)
                              (cleaned_deck data_df component_name))
    by (unfold cleaned_deck, temp_df_of; now apply dropna_strictly_sorted).
  assert (Hu : forall sorted_rows,
             Permutation (cleaned_deck data_df component_name) sorted_rows ->
             StronglySorted time_le sorted_rows ->
             sorted_rows = cleaned_deck data_df component_name)
    by (intros l' Hp Hl; now apply ascending_arrangement_unique).
  split; [|exact Hu].
  apply Hu; unfold cleaned_individual, cleaned_deck;
    [apply sort_values_perm | apply sort_values_sorted].
Qed.

Lemma arange_bounds (i : Z) (n : nat) :
  Forall (fun z => (i <= z < i + Z.of_nat n)%Z) (arange i n).
Proof.
  revert i; induction n as [|n IH]; intros i; [constructor|].
  cbn [arange]. constructor; [lia|].
  eapply Forall_impl; [|apply IH]. cbv beta. intros z Hz. lia.
Qed.

Lemma map_arange_sorted (f : Z -> Q) (i : Z) (n : nat) :
  (forall a b, (a <= b)%Z -> (f a <= f b)%Q) ->
  StronglySorted Qle (map f (arange i n)).
Proof.
  intros Hf. revert i; induction n as [|n IH]; intros i; [constructor|].
  cbn [arange map]. constructor; [apply IH|].
  apply Forall_map. eapply Forall_impl; [|apply arange_bounds].
  cbv beta. intros z Hz. apply Hf. lia.
Qed.

Lemma inject_Z_le (a b : Z) : (a <= b)%Z -> (inject_Z a <= inject_Z b)%Q.
Proof. intros H. now rewrite <- Zle_Qle. Qed.

Lemma linspace_sorted (lo hi : Q) (n : nat) :
  (lo <= hi)%Q -> StronglySorted Qle (linspace lo hi (S (S n))).
Proof.
  intros Hle. unfold linspace. cbv zeta. apply map_arange_sorted.
  intros a b Hab. apply Qplus_le_compat; [|apply Qle_refl].
  apply Qmult_le_compat_r; [now apply inject_Z_le|].
  apply Qle_shift_div_l.
  - change 0%Q with (inject_Z 0). rewrite <- Zlt_Qlt. lia.
  - rewrite Qmult_0_l. unfold Qminus.
    now apply (proj1 (Qle_minus_iff lo hi)).
Qed.

Lemma linspace_within (lo hi : Q) (n : nat) :
  (lo <= hi)%Q ->
  Forall (fun t => (lo <= t /\ t <= hi)%Q) (linspace lo hi (S (S n))).
Proof.
  intros Hle. unfold linspace. cbv zeta. apply Forall_map.
  eapply Forall_impl; [|apply (arange_bounds 0 (S (S n)))].
  cbv beta. intros z Hz.
  set (m := inject_Z (Z.of_nat (S (S n) - 1))).
  assert (Hm : (0 < m)%Q).
  { unfold m. change 0%Q with (inject_Z 0). rewrite <- Zlt_Qlt. lia. }
  assert (Hstep : (0 <= (hi - lo) / m)%Q).
  { apply Qle_shift_div_l; [exact Hm|].
    rewrite Qmult_0_l. unfold Qminus.
    now apply (proj1 (Qle_minus_iff lo hi)). }
  split.
  - rewrite <- (Qplus_0_l lo) at 1.
    apply Qplus_le_compat; [|apply Qle_refl].
    apply Qmult_le_0_compat; [|exact Hstep].
    change 0%Q with (inject_Z 0). apply inject_Z_le. lia.
  - assert (Hz' : (inject_Z z <= m)%Q) by (apply inject_Z_le; lia).
    apply Qle_trans with (m * ((hi - lo) / m) + lo)%Q.
    + apply Qplus_le_compat; [|apply Qle_refl].
      now apply Qmult_le_compat_r.
    + assert (E : (m * ((hi - lo) / m) + lo == hi)%Q)
        by (field; intros H0; rewrite H0 in Hm; discriminate).
      rewrite E. apply Qle_refl.
Qed.

Lemma valid_times_range (data_df : data_frame) :
  valid_times data_df <> [] ->
  exists lo hi,
    np_min (valid_times data_df) = Some lo
    /\ np_max (valid_times data_df) = Some hi
    /\ (lo <= hi)%Q
    /\ time_fine data_df = linspace lo hi num_interp_points.
Proof.
  intros Hne.
  destruct (np_min_some _ Hne) as [lo Hlo].
  destruct (np_max_some _ Hne) as [hi Hhi].
  exists lo, hi. split; [exact Hlo|]. split; [exact Hhi|].
  split.
  - apply (proj2 (np_max_spec _ _ Hhi)). apply (proj1 (np_min_spec _ _ Hlo)).
  - unfold time_fine. now rewrite Hlo, Hhi.
Qed.

Lemma time_fine_sorted (data_df : data_frame) :
  StronglySorted Qle (time_fine data_df).
Proof.
  destruct (valid_times data_df) as [|t ts] eqn:E.
  - unfold time_fine. rewrite E. constructor.
  - destruct (valid_times_range data_df) as [lo [hi [_ [_ [Hle ->]]]]];
      [rewrite E; discriminate|].
    now apply linspace_sorted.
Qed.

(** X9: the fine grid is in ascending order and, when the time column has
    a valid time, all its 5000 points lie between the smallest and the
    largest valid time. *)
Theorem time_fine_ascending_in_range (data_df : data_frame) :
  valid_times data_df <> [] ->
  exists lo hi,
    np_min (valid_times data_df) = Some lo
    /\ np_max (valid_times data_df) = Some hi
    /\ StronglySorted Qle (time_fine data_df)
    /\ Forall (fun t => (lo <= t /\ t <= hi)%Q) (time_fine data_df)
    /\ List.length (time_fine data_df) = 5000%nat.
Proof.
  intros Hne.
  destruct (valid_times_range data_df Hne) as [lo [hi [Hlo [Hhi [Hle Hg]]]]].
  exists lo, hi. split; [exact Hlo|]. split; [exact Hhi|].
  split; [apply time_fine_sorted|].
  rewrite Hg. split; [now apply linspace_within | apply linspace_length].
Qed.

(** ** Windows (lines 256-261, 345-350, 412-413, 438-439) *)

Lemma first_index_ge_spec (t0 : Q) (grid : list Q) :
  match first_index_ge t0 grid with
  | Some i =>
      (i < List.length grid)%nat /\ (t0 <= nth i grid 0)%Q
      /\ forall j, (j < i)%nat -> (nth j grid 0 < t0)%Q
  | None => Forall (fun t => (t < t0)%Q) grid
  end.
Proof.
  induction grid as [|t grid IH]; [constructor|].
  cbn [first_index_ge]. unfold Qge_bool.
  destruct (Qle_bool t0 t) eqn:E.
  - apply Qle_bool_iff in E. cbn [List.length nth].
    split; [lia|]. split; [exact E | intros j Hj; lia].
  - assert (Hlt : (t < t0)%Q).
    { apply Qnot_le_lt. intros H. apply Qle_bool_iff in H. congruence. }
    destruct (first_index_ge t0 grid) as [i|]; cbn [option_map].
    + destruct IH as [Hlen [Hge Hbefore]]. cbn [List.length nth].
      split; [lia|]. split; [exact Hge|].
      intros [|j] Hj; [exact Hlt | apply Hbefore; lia].
    + now constructor.
Qed.

(** X10: the start index of a deck zoom window is the first grid index
    whose time is at least the window start; there is none exactly when
    every grid time is before the window start. *)
Theorem zoom_start_index_is_first (t0 : Q) (grid : list Q) :
  match first_index_ge t0 grid with
  | Some i =>
      (i < List.length grid)%nat /\ (t0 <= nth i grid 0)%Q
      /\ forall j, (j < i)%nat -> (nth j grid 0 < t0)%Q
  | None => Forall (fun t => (t < t0)%Q) grid
  end.
Proof. apply first_index_ge_spec. Qed.

Lemma masked_in_skipn (t0 t1 : Q) (grid a : list Q) (start : nat) (x : Q) :
  first_index_ge t0 grid = Some start ->
  In x (masked t0 t1 grid a) -> In x (skipn start a).
Proof.
  revert a start; induction grid as [|t grid IH]; intros a start Hs Hin;
    [discriminate|].
  destruct a as [|y a]; [contradiction|].
  cbn [first_index_ge masked] in *.
  destruct (Qge_bool t t0) eqn:E.
  - injection Hs as <-. cbn [skipn andb] in *.
    destruct (Qle_bool t t1).
    + destruct Hin as [<-|Hin]; [now left|]. right.
      clear -Hin. revert a Hin. induction grid as [|t' grid IH]; intros a Hin;
        [destruct a; contradiction|].
      destruct a as [|y' a]; [contradiction|]. cbn [masked] in Hin.
      destruct (_ && _); [destruct Hin as [<-|Hin]; [now left|]|];
        right; now apply IH.
    + right.
      clear -Hin. revert a Hin. induction grid as [|t' grid IH]; intros a Hin;
        [destruct a; contradiction|].
      destruct a as [|y' a]; [contradiction|]. cbn [masked] in Hin.
      destruct (_ && _); [destruct Hin as [<-|Hin]; [now left|]|];
        right; now apply IH.
  - cbn [andb] in Hin.
    destruct (first_index_ge t0 grid) as [i|] eqn:Ei; [|discriminate].
    injection Hs as <-. cbn [skipn]. now apply (IH a i).
Qed.

Lemma tail_window_ylim_done (data_df : data_frame) (t0 : Q)
    (a : list (list Q)) (s s' : out) (ylim : Q * Q) :
  tail_window_ylim data_df t0 a s = (s', Done ylim) ->
  exists start lo hi,
    first_index_ge t0 (time_fine data_df) = Some start
    /\ np_min (from_index start a) = Some lo
    /\ np_max (from_index start a) = Some hi
    /\ ylim = auto_ylim lo hi /\ s' = s.
Proof.
  unfold tail_window_ylim, bind, of_option, ret, raise.
  destruct (first_index_ge t0 (time_fine data_df)) as [start|] eqn:E1;
    [|discriminate].
  destruct (np_min (from_index start a)) as [lo|] eqn:E2; [|discriminate].
  destruct (np_max (from_index start a)) as [hi|] eqn:E3; [|discriminate].
  intros H. injection H as <- <-. now exists start, lo, hi.
Qed.

(** X11: the Y range of a deck zoom or last-orbit figure contains every
    value that any curve of the deck takes at a grid point inside the
    window, whatever the window end is: no plotted curve is cut off. *)
Theorem deck_zoom_range_contains_window (data_df : data_frame)
    (t0 t1 : Q) (all_interp : list (list Q)) (s s' : out) (ylim : Q * Q)
    (a : list Q) (x : Q) :
  tail_window_ylim data_df t0 all_interp s = (s', Done ylim) ->
  In a all_interp ->
  In x (masked t0 t1 (time_fine data_df) a) ->
  (fst ylim <= x /\ x <= snd ylim)%Q.
Proof.
  intros Hrun Ha Hx.
  destruct (tail_window_ylim_done _ _ _ _ _ _ Hrun)
    as [start [lo [hi [Hstart [Hlo [Hhi [-> _]]]]]]].
  assert (Hin : In x (from_index start all_interp)).
  { unfold from_index. apply in_concat. exists (skipn start a).
    split; [now apply in_map | now apply (masked_in_skipn t0 t1 _ _ _ _ Hstart)]. }
  cbn [auto_ylim fst snd]. split.
  - apply Qle_trans with lo; [apply floor5_below|].
    now apply (proj2 (np_min_spec _ _ Hlo)).
  - apply Qle_trans with hi; [|apply ceil5_above].
    now apply (proj2 (np_max_spec _ _ Hhi)).
Qed.

Lemma masked_all (t0 t1 : Q) (grid a : list Q) :
  Forall (fun t => in_window t0 t1 t = true) grid ->
  List.length a = List.length grid ->
  masked t0 t1 grid a = a.
Proof.
  intros H. revert a; induction H as [|t grid Ht Hall IH]; intros a Hlen;
    destruct a as [|y a]; try discriminate; [reflexivity|].
  cbn [masked]. unfold in_window in Ht. rewrite Ht.
  f_equal. apply IH. simpl in Hlen. lia.
Qed.

Lemma masked_from_start (t0 t1 : Q) (grid a : list Q) (start : nat) :
  StronglySorted Qle grid ->
  Forall (fun t => (t <= t1)%Q) grid ->
  first_index_ge t0 grid = Some start ->
  List.length a = List.length grid ->
  masked t0 t1 grid a = skipn start a.
Proof.
  intros Hs. revert a start; induction Hs as [|t grid Hs IH Hall];
    intros a start Hle Hstart Hlen; [discriminate|].
  destruct a as [|y a]; [discriminate|].
  inversion Hle as [|? ? Ht1 Hle']; subst.
  cbn [first_index_ge] in Hstart.
  destruct (Qge_bool t t0) eqn:E.
  - injection Hstart as <-. cbn [skipn].
    apply masked_all; [|exact Hlen].
    constructor.
    + unfold in_window. rewrite E. now apply Qle_bool_iff.
    + rewrite Forall_forall in *. intros u Hu. unfold in_window, Qge_bool.
      apply andb_true_iff. split; apply Qle_bool_iff; [|now apply Hle'].
      apply Qle_trans with t; [now apply Qle_bool_iff | now apply Hall].
  - destruct (first_index_ge t0 grid) as [i|] eqn:Ei; [|discriminate].
    injection Hstart as <-. cbn [masked skipn]. rewrite E. cbn [andb].
    apply (IH a i Hle' eq_refl). simpl in Hlen. lia.
Qed.

(** X12: when the end of a deck zoom window is at or after the largest
    valid time, the values the deck zoom envelope is taken over (from the
    start index to the end of the grid) are exactly the values at the grid
    points inside the window, for series as long as the grid. *)
Theorem deck_zoom_exact_to_grid_end (data_df : data_frame) (t0 t1 hi : Q)
    (all_interp : list (list Q)) (start : nat) :
  np_max (valid_times data_df) = Some hi ->
  (hi <= t1)%Q ->
  first_index_ge t0 (time_fine data_df) = Some start ->
  Forall (fun a => List.length a = List.length (time_fine data_df))
         all_interp ->
  from_index start all_interp
  = List.concat (map (masked t0 t1 (time_fine data_df)) all_interp).
Proof.
  intros Hhi Hle Hstart Hlen.
  assert (Hne : valid_times data_df <> [])
    by (intros E; rewrite E in Hhi; discriminate).
  destruct (valid_times_range data_df Hne) as [lo [hi' [_ [Hhi' [Hlh Hg]]]]].
  assert (hi' = hi) by congruence. subst hi'.
  assert (Hwithin : Forall (fun t => (t <= t1)%Q) (time_fine data_df)).
  { rewrite Hg. eapply Forall_impl; [|apply (linspace_within lo hi _ Hlh)].
    cbv beta. intros t [_ Ht]. now apply Qle_trans with hi. }
  unfold from_index. f_equal. apply map_ext_in. intros a Ha.
  rewrite Forall_forall in Hlen. symmetry.
  apply masked_from_start; auto using time_fine_sorted.
Qed.

Lemma first_index_ge_none (t0 : Q) (grid : list Q) :
  Forall (fun t => (t < t0)%Q) grid -> first_index_ge t0 grid = None.
Proof.
  induction 1 as [|t grid Ht Hall IH]; [reflexivity|].
  cbn [first_index_ge]. unfold Qge_bool.
  destruct (Qle_bool t0 t) eqn:E.
  - apply Qle_bool_iff in E. exfalso. now apply (Qlt_not_le _ _ Ht).
  - now rewrite IH.
Qed.

(** X13: when the deck zoom window starts after every grid time, the
    plotting of a deck never completes: it ends with an exception (at the
    latest at the start-index lookup), and no zoomed and no last-orbit
    figure is saved. *)
Theorem deck_zoom_start_after_grid_raises (cfg : config)
    (data_df : data_frame) (deck_name : string)
    (all_interp : list (list Q)) (s : out) :
  Forall (fun t => (t < fst (deck_zoom_plot_x_range cfg))%Q)
         (time_fine data_df) ->
  exists s' e,
    deck_plots cfg data_df deck_name all_interp s = (s', Raised e)
    /\ forall f, In f (saved s') ->
                 In f (saved s) \/ fig_window f = DeckFull.
Proof.
  intros Hall.
  unfold deck_plots, tail_window_ylim.
  unfold bind at 1.
  destruct (np_min _) as [lo|]; cbn [of_option ret raise];
    [|eexists _, _; split; [reflexivity | intros f Hf; now left]].
  unfold bind at 1.
  destruct (np_max _) as [hi|]; cbn [of_option ret raise];
    [|eexists _, _; split; [reflexivity | intros f Hf; now left]].
  unfold bind at 1. rewrite choose_ylim_policy.
  unfold bind at 1. cbn [savefig].
  rewrite (first_index_ge_none _ _ Hall).
  cbv beta iota delta [bind of_option raise].
  eexists _, _. split; [reflexivity|].
  intros f Hf. cbn [saved] in Hf.
  apply in_app_or in Hf as [Hf|[<-|[]]]; [left | now right].
  destruct (snd (three_step_policy _ _ _ _)); exact Hf.
Qed.

(** X14: on the individual-plot path, a zoom window without a grid point
    or without a raw sample of the component never gives a zoomed figure:
    whatever else happens to the component, the only figure that can be
    saved for it is the full profile. *)
Theorem individual_zoom_passed_over
    (pchip_interpolate : list Q -> list Q -> list Q -> option (list Q))
    (cfg : config) (data_df : data_frame) (component_name : string)
    (s : out) :
  existsb (in_window (fst (zoom_plot_x_range cfg))
                     (snd (zoom_plot_x_range cfg))) (time_fine data_df)
  = false
  \/ filter (fun r => in_window (fst (zoom_plot_x_range cfg))
                                (snd (zoom_plot_x_range cfg)) (fst r))
            (cleaned_individual data_df component_name) = [] ->
  forall f,
    In f (saved (fst (individual_plots pchip_interpolate cfg data_df
                                       component_name s))) ->
    In f (saved s)
    \/ (fig_window f = FullProfile /\ fig_entity f = component_name).
Proof.
  intros Hwin f.
  unfold individual_plots. cbv zeta.
  destruct (_ <? 2)%nat; [intros Hf; now left|].
  unfold bind at 1.
  destruct (pchip_interpolate _ _ _) as [interp|]; cbn [of_option ret raise];
    [|intros Hf; now left].
  unfold bind at 1.
  destruct (np_min interp) as [lo|]; cbn [of_option ret raise];
    [|intros Hf; now left].
  unfold bind at 1.
  destruct (np_max interp) as [hi|]; cbn [of_option ret raise];
    [|intros Hf; now left].
  unfold bind at 1. rewrite choose_ylim_policy.
  unfold bind at 1. cbn [savefig].
  destruct (zoom_plot_x_range cfg) as [t0 t1]. cbn [fst snd] in Hwin.
  assert (Hend :
    forall s0,
      (if negb (existsb (in_window t0 t1) (time_fine data_df))
       then ret tt
       else
         match
           map snd (filter (fun r => in_window t0 t1 (fst r))
                           (cleaned_individual data_df component_name))
         with
         | [] => ret tt
         | _ :: _ =>
             lo0 <- of_option ZeroSizeReduction
                      (np_min (masked t0 t1 (time_fine data_df) interp)) ;;
             hi0 <- of_option ZeroSizeReduction
                      (np_max (masked t0 t1 (time_fine data_df) interp)) ;;
             savefig ZoomedProfile component_name (auto_ylim lo0 hi0)
         end) s0 = (s0, Done tt)).
  { intros s0. destruct Hwin as [H|H]; rewrite H; [reflexivity|].
    cbn [map]. now destruct (negb _). }
  rewrite Hend. cbn [fst saved]. intros Hf.
  apply in_app_or in Hf as [Hf|[<-|[]]]; [left | right; now split].
  destruct (snd (three_step_policy _ _ _ _)); exact Hf.
Qed.

(** ** Report rows (lines 320-362) *)

Lemma string_length_app (a b : string) :
  String.length (a ++ b) = (String.length a + String.length b)%nat.
Proof. induction a; simpl; [reflexivity | now rewrite IHa]. Qed.

Lemma str_mul_length (c : ascii) (n : nat) : String.length (str_mul c n) = n.
Proof. induction n; simpl; [reflexivity | now rewrite IHn]. Qed.

Lemma ljust_length (n : nat) (s : string) :
  String.length (ljust n s) = Nat.max n (String.length s).
Proof. unfold ljust. rewrite string_length_app, str_mul_length. lia. Qed.

Lemma replace_char_length (a b : ascii) (s : string) :
  String.length (replace_char a b s) = String.length s.
Proof. induction s; simpl; [reflexivity | now rewrite IHs]. Qed.

Lemma header_length : String.length header = 96%nat.
Proof. reflexivity. Qed.

(** X15: a report row with limits is always longer than the header line,
    whatever the numbers are: the simulated-range field takes at least 16
    characters where the header column has 15, so the columns to its right
    never line up with the header. *)
Theorem limits_row_longer_than_header (format_f : nat -> Q -> string)
    (display_name : string) (limits : limit_record) (sim_min sim_max : Q) :
  (15 < String.length (ljust 15 (sim_range_str format_f sim_min sim_max))
   /\ String.length header
      < String.length (limits_row format_f display_name limits
                                  sim_min sim_max))%nat.
Proof.
  unfold limits_row, row_name, sim_range_str.
  rewrite header_length.
  repeat rewrite ?string_length_app, ?ljust_length.
  cbn [String.length nl]. split; lia.
Qed.

(** X16: a row without limits is as long as the header line exactly when
    the display name has at most 25 characters; a longer name makes the
    row longer by the excess. *)
Theorem no_limits_row_length (display_name : string) :
  String.length (no_limits_row display_name)
  = (Nat.max 25 (String.length display_name) + 71)%nat
  /\ (String.length (no_limits_row display_name) = String.length header
      <-> (String.length display_name <= 25)%nat).
Proof.
  assert (H : String.length (no_limits_row display_name)
              = (Nat.max 25 (String.length display_name) + 71)%nat).
  { unfold no_limits_row, row_name.
    repeat rewrite ?string_length_app, ?ljust_length, ?replace_char_length.
    cbn [String.length nl]. lia. }
  split; [exact H|]. rewrite H, header_length. lia.
Qed.

Lemma Qle_0_minus (a b : Q) : (0 <= a - b <-> b <= a)%Q.
Proof. unfold Qminus. symmetry. apply Qle_minus_iff. Qed.

(** X17: a component whose acceptance limits are the wrong way round
    (maximum below minimum) gets the status FAIL for every series. *)
Theorem inverted_limits_fail (limits : limit_record) (interp : list Q)
    (sim_min sim_max : Q) :
  (Acceptance_Max limits < Acceptance_Min limits)%Q ->
  np_min interp = Some sim_min ->
  np_max interp = Some sim_max ->
  status limits sim_min sim_max = "FAIL".
Proof.
  intros Hinv Hmin Hmax.
  destruct (status_values limits sim_min sim_max) as [Hp|Hf]; [|exact Hf].
  exfalso. apply status_pass_iff in Hp as [Hh Hc].
  unfold hot_margin in Hh. unfold cold_margin in Hc.
  apply (proj1 (Qle_0_minus _ _)) in Hh.
  apply (proj1 (Qle_0_minus _ _)) in Hc.
  assert (Hmm : (sim_min <= sim_max)%Q).
  { apply (proj2 (np_max_spec _ _ Hmax)). apply (proj1 (np_min_spec _ _ Hmin)). }
  apply (Qlt_not_le _ _ Hinv).
  apply Qle_trans with sim_min; [exact Hc|].
  now apply Qle_trans with sim_max.
Qed.

(** ** The loop over the members of a deck (lines 329-362) *)

Section DeckLoop.

Variable pchip_interpolate : list Q -> list Q -> list Q -> option (list Q).
Variable format_f : nat -> Q -> string.
Variable cfg : config.
Variable data_df : data_frame.
Variable limits_map : list (string * limit_record).

Local Abbreviation member :=
  (deck_member pchip_interpolate format_f cfg data_df limits_map).
Local Abbreviation row :=
  (row_of pchip_interpolate format_f data_df limits_map).
Local Abbreviation series := (series_or_nil pchip_interpolate data_df).

Lemma add_report_nil (s : out) : add_report s [] = s.
Proof. destruct s. unfold add_report; simpl. now rewrite app_nil_r. Qed.

Lemma add_report_app (s : out) (a b : list string) :
  add_report (add_report s a) b = add_report s (a ++ b).
Proof. unfold add_report; simpl. now rewrite app_assoc. Qed.

(** What one member step does when it returns. *)
Lemma deck_member_done (component_name : string) (acc acc' : list (list Q))
    (s s' : out) :
  member component_name acc s = (s', Done acc') ->
  if contributes cfg data_df component_name
  then s' = add_report s [row component_name]
       /\ acc' = (acc ++ [series component_name])%list
       /\ series_of pchip_interpolate data_df component_name
          = Some (series component_name)
       /\ series component_name <> []
  else s' = s /\ acc' = acc.
Proof.
  destruct (contributes cfg data_df component_name) eqn:Hc.
  - unfold deck_member.
    unfold contributes in Hc. apply andb_true_iff in Hc as [H1 H2].
    apply negb_true_iff in H1, H2. rewrite H1, H2.
    unfold row_of, series_or_nil, series_of, cleaned_deck.
    unfold bind, of_option, ret, raise, write.
    destruct (pchip_interpolate _ _ _) as [v|]; [|discriminate].
    destruct (np_min v) as [lo|] eqn:Elo; [|discriminate].
    destruct (np_max v) as [hi|] eqn:Ehi; [|discriminate].
    intros H. injection H as <- <-.
    repeat split. intros ->. discriminate.
  - rewrite deck_member_skipped by exact Hc.
    intros H. injection H as <- <-. now split.
Qed.

Lemma for_acc_member_done (component_list : list string)
    (acc acc' : list (list Q)) (s s' : out) :
  for_acc member component_list acc s = (s', Done acc') ->
  s' = add_report s (map row (contributing cfg data_df component_list))
  /\ acc' = (acc ++ map series (contributing cfg data_df component_list))%list
  /\ Forall (fun c => series_of pchip_interpolate data_df c = Some (series c)
                      /\ series c <> [])
            (contributing cfg data_df component_list).
Proof.
  revert acc s; induction component_list as [|c l IH]; intros acc s.
  - cbn [for_acc]. unfold ret. intros H. injection H as <- <-.
    cbn. now rewrite add_report_nil, app_nil_r.
  - cbn [for_acc]. unfold bind.
    destruct (member c acc s) as [s1 [acc1|e]] eqn:E; [|discriminate].
    intros Hrest. apply deck_member_done in E.
    destruct (IH _ _ Hrest) as [Hs' [Hacc' Hall]].
    unfold contributing in *. cbn [filter].
    destruct (contributes cfg data_df c).
    + destruct E as [-> [-> [Hser Hne]]]. cbn [map].
      rewrite Hs', Hacc', add_report_app, <- app_assoc.
      split; [reflexivity|]. split; [reflexivity|]. now constructor.
    + destruct E as [-> ->]. now split.
Qed.

(** X18: when the loop over the members of a deck ends without an
    exception, it has written exactly the rows of the members that are
    neither excluded nor short of two valid rows, one row each in the
    order of the deck, has printed nothing and saved no figure, and hands
    on their series in the same order. *)
Theorem deck_rows_in_member_order (component_list : list string)
    (all_interp : list (list Q)) (s s' : out) :
  deck_rows pchip_interpolate format_f cfg data_df limits_map
            component_list s = (s', Done all_interp) ->
  report_file s'
  = (report_file s
     ++ map row (contributing cfg data_df component_list))%list
  /\ console s' = console s
  /\ saved s' = saved s
  /\ all_interp = map series (contributing cfg data_df component_list).
Proof.
  unfold deck_rows. intros H.
  destruct (for_acc_member_done _ _ _ _ _ H) as [-> [-> _]].
  repeat split.
Qed.

(** X19: the member step of the deck loop never prints and never saves a
    figure, whether the member is excluded, skipped for too few rows,
    processed, or stopped by an exception. *)
Theorem deck_member_is_silent (component_name : string)
    (acc : list (list Q)) (s : out) :
  console (fst (member component_name acc s)) = console s
  /\ saved (fst (member component_name acc s)) = saved s.
Proof.
  unfold deck_member.
  destruct (mem_string component_name (excluded_components cfg));
    [now split|].
  destruct (_ <? _)%nat; [now split|].
  unfold bind, of_option, ret, raise, write.
  destruct (pchip_interpolate _ _ _) as [v|]; [|now split].
  destruct (np_min v); [|now split].
  destruct (np_max v); now split.
Qed.

End DeckLoop.

(** ** The figures of a deck (lines 366-449) *)

Lemma tail_window_ylim_state (data_df : data_frame) (t0 : Q)
    (a : list (list Q)) (s : out) :
  fst (tail_window_ylim data_df t0 a s) = s
  /\ snd (tail_window_ylim data_df t0 a s)
     = snd (tail_window_ylim data_df t0 a empty_out)
  /\ match snd (tail_window_ylim data_df t0 a s) with
     | Done ylim => exists lo hi, ylim = auto_ylim lo hi
     | Raised _ => True
     end.
Proof.
  unfold tail_window_ylim, bind, of_option, ret, raise.
  destruct (first_index_ge t0 (time_fine data_df)) as [start|];
    [|now repeat split].
  destruct (np_min (from_index start a)) as [lo|]; [|now repeat split].
  destruct (np_max (from_index start a)) as [hi|]; [|now repeat split].
  cbn [fst snd]. repeat split. now exists lo, hi.
Qed.

Lemma deck_plots_done (cfg : config) (data_df : data_frame)
    (deck_name : string) (all_interp : list (list Q)) (s s' : out) :
  deck_plots cfg data_df deck_name all_interp s = (s', Done tt) ->
  exists y1 lo2 hi2 lo3 hi3,
    saved s'
    = (saved s
       ++ [ {| fig_window := DeckFull; fig_entity := deck_name;
               fig_ylim := y1 |};
            {| fig_window := DeckZoomed; fig_entity := deck_name;
               fig_ylim := auto_ylim lo2 hi2 |};
            {| fig_window := DeckLastOrbit; fig_entity := deck_name;
               fig_ylim := auto_ylim lo3 hi3 |} ])%list
    /\ report_file s' = report_file s.
Proof.
  unfold deck_plots.
  unfold bind at 1. destruct (np_min _) as [lo|]; [|discriminate].
  cbn [of_option ret].
  unfold bind at 1. destruct (np_max _) as [hi|]; [|discriminate].
  cbn [of_option ret].
  unfold bind at 1. rewrite choose_ylim_policy.
  set (pol := three_step_policy _ _ lo hi).
  set (s1 := if snd pol then fst (print (deck_warning deck_name) s) else s).
  assert (Hs1 : saved s1 = saved s /\ report_file s1 = report_file s)
    by (unfold s1; destruct (snd pol); now split).
  destruct Hs1 as [Hsaved Hreport].
  unfold bind at 1. cbn [savefig].
  unfold bind at 1.
  match goal with
  | |- context [tail_window_ylim data_df ?t0 all_interp ?st] =>
      destruct (tail_window_ylim_state data_df t0 all_interp st)
        as [Hst [_ Hy]];
      destruct (tail_window_ylim data_df t0 all_interp st) as [s2 [y2|e]];
        [|discriminate]
  end.
  cbn [fst snd] in Hst, Hy. subst s2. destruct Hy as [lo2 [hi2 ->]].
  unfold bind at 1. cbn [savefig].
  unfold bind at 1.
  match goal with
  | |- context [tail_window_ylim data_df ?t0 all_interp ?st] =>
      destruct (tail_window_ylim_state data_df t0 all_interp st)
        as [Hst [_ Hy]];
      destruct (tail_window_ylim data_df t0 all_interp st) as [s3 [y3|e]];
        [|discriminate]
  end.
  cbn [fst snd] in Hst, Hy. subst s3. destruct Hy as [lo3 [hi3 ->]].
  cbn [savefig]. intros H. injection H as <-.
  exists (fst pol), lo2, hi2, lo3, hi3. cbn [saved report_file].
  rewrite Hsaved, Hreport, <- !app_assoc. now split.
Qed.


(** ** Runs that end without an exception *)

Section CompletedRun.

Variable pchip_interpolate : list Q -> list Q -> list Q -> option (list Q).
Variable format_f : nat -> Q -> string.
Variable cfg : config.
Variable data_df : data_frame.
Variable limits_map : list (string * limit_record).

Local Abbreviation member :=
  (deck_member pchip_interpolate format_f cfg data_df limits_map).
Local Abbreviation deck_step :=
  (process_deck pchip_interpolate format_f cfg data_df limits_map).
Local Abbreviation section_of :=
  (deck_section pchip_interpolate format_f cfg data_df limits_map).
Local Abbreviation run :=
  (main pchip_interpolate format_f cfg data_df limits_map).
Local Abbreviation names := (all_component_names data_df).

Lemma process_deck_done (deck : string * list string) (s s' : out) :
  deck_step deck s = (s', Done tt) ->
  report_file s' = (report_file s ++ section_of deck)%list
  /\ map fig_key (saved s')
     = (map fig_key (saved s) ++ deck_figures (fst deck))%list.
Proof.
  destruct deck as [deck_name component_list].
  unfold process_deck, deck_rows.
  cbv beta iota delta [bind print write].
  destruct (for_acc member component_list [] _) as [s2 [all|e]] eqn:E;
    [|discriminate].
  apply for_acc_member_done in E as [-> [-> _]].
  destruct (deck_plots cfg data_df deck_name _ _) as [s3 [[]|e]] eqn:E3;
    [|discriminate].
  intros H. injection H as <-.
  apply deck_plots_done in E3
    as [y1 [lo2 [hi2 [lo3 [hi3 [Hsaved Hreport]]]]]].
  rewrite Hreport, Hsaved. cbn [report_file saved add_report].
  unfold deck_section. cbn [fst snd].
  split.
  - repeat rewrite <- app_assoc. reflexivity.
  - rewrite map_app. reflexivity.
Qed.

Lemma deck_phase_done (decks : list (string * list string)) (s s' : out) :
  for_each deck_step decks s = (s', Done tt) ->
  report_file s' = (report_file s ++ flat_map section_of decks)%list
  /\ map fig_key (saved s')
     = (map fig_key (saved s)
        ++ flat_map deck_figures (map fst decks))%list.
Proof.
  revert s; induction decks as [|deck decks IH]; intros s.
  - cbn [for_each]. unfold ret. intros H. injection H as <-.
    cbn. now rewrite !app_nil_r.
  - cbn [for_each]. unfold bind.
    destruct (deck_step deck s) as [s1 [[]|e]] eqn:E; [|discriminate].
    intros Hrest. apply process_deck_done in E as [Hr Hf].
    destruct (IH _ Hrest) as [Hr' Hf'].
    rewrite Hr', Hf', Hr, Hf. cbn [flat_map map].
    now rewrite <- !app_assoc.
Qed.

(** X21: the report of a run that ends without an exception is the three
    title lines, the "Generated on:" line and then one section per deck in
    deck order, each section being the five heading chunks, one row per
    member that is neither excluded nor short of two valid rows, in deck
    order, and a blank line; with individual plots switched off the saved
    figures are the three deck figures of every deck, in deck order. *)
Theorem completed_run_report (now : string) (s' : out) :
  run now empty_out = (s', Done tt) ->
  report_file s'
  = (report_title
     ++ generated_on now :: flat_map section_of (deck_groups names))%list
  /\ (generate_individual_plots cfg = false ->
      map fig_key (saved s')
      = flat_map deck_figures (map fst (deck_groups names))).
Proof.
  unfold main. unfold bind at 1.
  destruct (individual_phase pchip_interpolate cfg data_df empty_out)
    as [s1 [[]|e]] eqn:E1; [|discriminate].
  assert (Hs1 : report_file s1 = []
                /\ (generate_individual_plots cfg = false -> saved s1 = [])).
  { split.
    - destruct (individual_phase_no_report pchip_interpolate cfg data_df)
        as [d1 [r1 [H1 [Hd1 _]]]].
      rewrite H1 in E1. injection E1 as <- _. exact Hd1.
    - intros Hoff. unfold individual_phase in E1. rewrite Hoff in E1.
      unfold print in E1. injection E1 as <-. reflexivity. }
  destruct Hs1 as [Hr1 Hf1].
  cbv beta iota delta [bind print write for_each report_title ret].
  cbv beta iota. unfold deck_phase.
  match goal with
  | |- context [for_each deck_step ?decks ?st] =>
      destruct (for_each deck_step decks st) as [s2 [[]|e]] eqn:E2;
        [|discriminate]
  end.
  intros H. injection H as <-.
  apply deck_phase_done in E2 as [Hr Hf].
  cbn [report_file saved] in *. rewrite Hr1 in Hr. cbn [app] in Hr.
  split; [exact Hr|].
  intros Hoff. rewrite Hf, (Hf1 Hoff). reflexivity.
Qed.

End CompletedRun.

(** ** The further properties on concrete tables *)

(** The battery table has its two valid times in strictly ascending
    order. *)
Lemma paths_agree_on_ascending_times_witness :
  cleaned_individual battery_df "PWR_Battery.T1"
  = cleaned_deck battery_df "PWR_Battery.T1".
Proof.
  apply (proj1 (paths_agree_on_ascending_times battery_df "PWR_Battery.T1"
                  ltac:(repeat constructor))).
Defined.

(** The battery table has valid times. *)
Lemma time_fine_ascending_in_range_witness :
  exists lo hi,
    np_min (valid_times battery_df) = Some lo
    /\ np_max (valid_times battery_df) = Some hi
    /\ StronglySorted Qle (time_fine battery_df)
    /\ Forall (fun t => (lo <= t /\ t <= hi)%Q) (time_fine battery_df)
    /\ List.length (time_fine battery_df) = 5000%nat.
Proof.
  apply time_fine_ascending_in_range. discriminate.
Defined.

(** The battery series in the window from minute 2 to minute 4. *)
Lemma deck_zoom_range_contains_window_witness :
  let x := hd 0%Q (masked 2 4 (time_fine battery_df) battery_series) in
  (-5 <= x /\ x <= 45)%Q.
Proof.
  intros x.
  refine (deck_zoom_range_contains_window battery_df 2 4 [battery_series]
            empty_out empty_out (-5, 45) battery_series x _ _ _).
  - vm_compute. reflexivity.
  - now left.
  - vm_compute. left. reflexivity.
Defined.

(** The battery series with a deck zoom window from minute 2 to the last
    minute of the table. *)
Lemma deck_zoom_exact_to_grid_end_witness :
  from_index 1000 [battery_series]
  = List.concat (map (masked 2 10 (time_fine battery_df)) [battery_series]).
Proof.
  apply (deck_zoom_exact_to_grid_end battery_df 2 10 10).
  - reflexivity.
  - discriminate.
  - vm_compute. reflexivity.
  - constructor; [vm_compute; reflexivity | constructor].
Defined.

(** The battery table with a deck zoom window from minute 20 to 30. *)
Lemma deck_zoom_start_after_grid_raises_witness :
  exists s' e,
    deck_plots (with_deck_zoom demo_cfg (20, 30)) battery_df "PWR"
               [battery_series] empty_out = (s', Raised e)
    /\ forall f, In f (saved s') -> In f [] \/ fig_window f = DeckFull.
Proof.
  apply (deck_zoom_start_after_grid_raises
           (with_deck_zoom demo_cfg (20, 30)) battery_df "PWR"
           [battery_series] empty_out).
  assert (Hb : forallb (fun t => negb (Qle_bool 20 t))
                       (time_fine battery_df) = true)
    by (vm_compute; reflexivity).
  apply Forall_forall. intros t Ht.
  rewrite forallb_forall in Hb. specialize (Hb t Ht).
  apply negb_true_iff in Hb. apply Qnot_le_lt. intros H.
  apply Qle_bool_iff in H. cbn [with_deck_zoom deck_zoom_plot_x_range fst] in H.
  congruence.
Defined.

(** The battery table: no raw sample between minutes 2 and 4. *)
Lemma individual_zoom_passed_over_witness :
  filter (fun r => in_window 2 4 (fst r))
         (cleaned_individual battery_df "PWR_Battery.T1") = []
  /\ forall f,
       In f (saved (fst (individual_plots pchip_two_nodes demo_cfg battery_df
                                          "PWR_Battery.T1" empty_out))) ->
       In f []
       \/ (fig_window f = FullProfile /\ fig_entity f = "PWR_Battery.T1").
Proof.
  split; [reflexivity|].
  apply (individual_zoom_passed_over pchip_two_nodes demo_cfg battery_df
           "PWR_Battery.T1" empty_out).
  right. reflexivity.
Defined.

(** Limits with the maximum -10 below the minimum 50. *)
Lemma inverted_limits_fail_witness :
  status {| Acceptance_Min := 50; Acceptance_Max := -10;
            Design_Min := 55; Design_Max := -15 |} 1 2 = "FAIL".
Proof.
  apply (inverted_limits_fail _ [1; 2]%Q); reflexivity.
Defined.

(** The loop over the one member of the battery deck. *)
Lemma deck_rows_in_member_order_witness :
  exists s' all_interp,
    deck_rows pchip_two_nodes fixed_point demo_cfg battery_df battery_limits
              ["PWR_Battery.T1"] empty_out = (s', Done all_interp)
    /\ console s' = [] /\ saved s' = []
    /\ all_interp = [series_or_nil pchip_two_nodes battery_df
                                   "PWR_Battery.T1"].
Proof.
  destruct (deck_rows pchip_two_nodes fixed_point demo_cfg battery_df
                      battery_limits ["PWR_Battery.T1"] empty_out)
    as [s' [all_interp|e]] eqn:E; [|vm_compute in E; discriminate].
  exists s', all_interp. split; [reflexivity|].
  destruct (deck_rows_in_member_order _ _ _ _ _ _ _ _ _ E)
    as [_ [Hc [Hs Ha]]].
  split; [exact Hc|]. split; [exact Hs | exact Ha].
Defined.


(** The run on the battery table, individual plots off. *)
Lemma completed_run_report_witness :
  exists s',
    main pchip_two_nodes fixed_point demo_cfg battery_df battery_limits
         "2026-01-01 00:00:00" empty_out = (s', Done tt)
    /\ map fig_key (saved s') = deck_figures "PWR".
Proof.
  destruct (main pchip_two_nodes fixed_point demo_cfg battery_df
                 battery_limits "2026-01-01 00:00:00" empty_out)
    as [s' [[]|e]] eqn:E; [|vm_compute in E; discriminate].
  exists s'. split; [reflexivity|].
  exact (proj2 (completed_run_report _ _ _ _ _ _ _ E) eq_refl).
Defined.

(** ** Deck names and the full-profile Y range *)

Lemma split_head_is_prefix (sep s : string) :
  exists rest, s = split_head sep s ++ rest.
Proof.
  induction s as [|c s IH].
  - exists "". cbn [split_head]. now destruct (prefix sep "").
  - destruct (prefix sep (String c s)) eqn:E.
    + rewrite (split_head_here _ _ E). now exists (String c s).
    + rewrite (split_head_next _ _ _ E). destruct IH as [rest Hrest].
      exists rest. cbn [append]. now rewrite <- Hrest.
Qed.

Lemma split_head_char_free (c : ascii) (s : string) :
  count_char c (split_head (String c "") s) = O.
Proof.
  induction s as [|c' s IH].
  - cbn [split_head]. now destruct (prefix _ "").
  - destruct (prefix (String c "") (String c' s)) eqn:E.
    + now rewrite (split_head_here _ _ E).
    + rewrite (split_head_next _ _ _ E). cbn [count_char]. rewrite IH.
      destruct (Ascii.eqb c' c) eqn:Ec; [|reflexivity].
      apply Ascii.eqb_eq in Ec. subst c'. exfalso.
      assert (Ht : prefix (String c "") (String c s) = true)
        by (apply prefix_iff; now exists s).
      congruence.
Qed.

(** X23: the deck name of an identifier is a beginning of the identifier
    and holds no underscore; the display name it is cut from is a
    beginning of the identifier as well. *)
Theorem deck_prefix_shape (component_name : string) :
  (exists rest, component_name = deck_prefix_of component_name ++ rest)
  /\ (exists rest, component_name = display_name_of component_name ++ rest)
  /\ count_char "_"%char (deck_prefix_of component_name) = O.
Proof.
  unfold deck_prefix_of, display_name_of.
  destruct (split_head_is_prefix ".T" component_name) as [r1 H1].
  destruct (split_head_is_prefix "_" (split_head ".T" component_name))
    as [r2 H2].
  split; [|split].
  - exists (r2 ++ r1). rewrite <- string_append_assoc, <- H2. exact H1.
  - now exists r1.
  - apply split_head_char_free.
Qed.

(** X24: without a manual override, the Y range chosen for a full-profile
    plot contains the envelope it was chosen for, so the curve is never
    cut off; a warning is printed exactly when the range is not the
    configured default. *)
Theorem full_range_contains_envelope (cfg : config) (entity : string)
    (default : yrange) (warning : string) (lo hi : Q) (s : out) :
  lookup entity (manual_ylimits cfg) = None ->
  exists ylim,
    snd (choose_ylim cfg entity default warning lo hi s) = Done ylim
    /\ (fst ylim <= lo /\ hi <= snd ylim)%Q
    /\ (console (fst (choose_ylim cfg entity default warning lo hi s))
        = console s
        <-> default = Fixed (fst ylim) (snd ylim)).
Proof.
  intros Hm. rewrite choose_ylim_policy, Hm. unfold three_step_policy.
  assert (Hauto : (fst (auto_ylim lo hi) <= lo /\ hi <= snd (auto_ylim lo hi))%Q)
    by (split; [apply floor5_below | apply ceil5_above]).
  assert (Hprint : console (fst (print warning s)) <> console s).
  { cbn. intros H. apply (f_equal (@List.length string)) in H.
    rewrite length_app in H. simpl in H. lia. }
  destruct default as [|a b].
  - eexists. split; [reflexivity|]. split; [exact Hauto|].
    cbn [fst snd]. split; [intros H; now apply Hprint in H | discriminate].
  - destruct (Qle_bool a lo) eqn:Ea; destruct (Qle_bool hi b) eqn:Eb;
      cbn [andb fst snd].
    + eexists. split; [reflexivity|].
      split; [split; now apply Qle_bool_iff|]. cbn [fst snd]. tauto.
    + eexists. split; [reflexivity|]. split; [exact Hauto|].
      split; [intros H; now apply Hprint in H|].
      intros H. injection H as Ha Hb. exfalso.
      assert (Hc : Qle_bool hi b = true)
        by (apply Qle_bool_iff; rewrite Hb; apply ceil5_above).
      congruence.
    + eexists. split; [reflexivity|]. split; [exact Hauto|].
      split; [intros H; now apply Hprint in H|].
      intros H. injection H as Ha Hb. exfalso.
      assert (Hc : Qle_bool a lo = true)
        by (apply Qle_bool_iff; rewrite Ha; apply floor5_below).
      congruence.
    + eexists. split; [reflexivity|]. split; [exact Hauto|].
      split; [intros H; now apply Hprint in H|].
      intros H. injection H as Ha Hb. exfalso.
      assert (Hc : Qle_bool a lo = true)
        by (apply Qle_bool_iff; rewrite Ha; apply floor5_below).
      congruence.
Qed.

(** The battery deck, no manual range, default range "auto". *)
Lemma full_range_contains_envelope_witness :
  exists ylim,
    snd (choose_ylim demo_cfg "PWR" Auto "warning" (-12) 45 empty_out)
    = Done ylim
    /\ (fst ylim <= -12 /\ 45 <= snd ylim)%Q.
Proof.
  destruct (full_range_contains_envelope demo_cfg "PWR" Auto "warning"
              (-12) 45 empty_out eq_refl) as [ylim [H1 [H2 _]]].
  exists ylim. now split.
Defined.

(** ** The Y range of every figure, window by window *)

Lemma writer_of_option_eq (P : out -> Prop) {A : Type} (e : exn)
    (o : option A) :
  P empty_out -> writer P (fun a => o = Some a) (of_option e o).
Proof. intros H0. apply writer_of_option; [exact H0 | intros a Ha; exact Ha]. Qed.

Lemma writer_for_each_in (P : out -> Prop) {A : Type} (body : A -> M unit)
    (l : list A) :
  P empty_out -> (forall a b, P a -> P b -> P (out_app a b)) ->
  (forall x, In x l -> writer P any (body x)) ->
  writer P any (for_each body l).
Proof.
  intros H0 Happ. induction l as [|x l IH]; intros Hb; cbn [for_each].
  - apply writer_ret; [exact H0 | exact I].
  - apply writer_bind with (Post := any);
      [exact Happ | apply Hb; now left
       | intros _ _; apply IH; intros y Hy; apply Hb; now right].
Qed.

(** What holds of the value of every completed call holds of the value a
    writer returns. *)
Lemma writer_strengthen (P : out -> Prop) {A : Type} (Post : A -> Prop)
    (m : M A) :
  writer P any m -> (forall s s' a, m s = (s', Done a) -> Post a) ->
  writer P Post m.
Proof.
  intros [d [r [Hm [Hd _]]]] H. exists d, r.
  split; [exact Hm|]. split; [exact Hd|].
  destruct r as [a|e]; [|exact I]. exact (H empty_out _ a (Hm empty_out)).
Qed.

Lemma figs_tied_app pchip (cfg : config) (data_df : data_frame) (a b : out) :
  figs_tied pchip cfg data_df a -> figs_tied pchip cfg data_df b ->
  figs_tied pchip cfg data_df (out_app a b).
Proof. unfold figs_tied, out_app; simpl. intros; now apply Forall_app. Qed.

Lemma tail_window_ylim_tied (P : out -> Prop) (data_df : data_frame) (t0 : Q)
    (a : list (list Q)) :
  P empty_out ->
  writer P (tail_tied data_df t0 a) (tail_window_ylim data_df t0 a).
Proof.
  intros H0.
  exists empty_out, (snd (tail_window_ylim data_df t0 a empty_out)).
  split; [|split; [exact H0|]].
  - intros s. rewrite out_app_empty.
    destruct (tail_window_ylim_state data_df t0 a s) as [H1 [H2 _]].
    apply injective_projections; cbn [fst snd]; [exact H1 | exact H2].
  - destruct (tail_window_ylim data_df t0 a empty_out) as [s1 [y|e]] eqn:E;
      cbn [snd]; [|exact I].
    apply tail_window_ylim_done in E
      as [start [lo [hi [Hst [Hlo [Hhi [Hy _]]]]]]].
    exists start, lo, hi. now repeat split.
Qed.

Section YRanges.

Variable pchip_interpolate : list Q -> list Q -> list Q -> option (list Q).
Variable format_f : nat -> Q -> string.
Variable cfg : config.
Variable data_df : data_frame.
Variable limits_map : list (string * limit_record).

Local Abbreviation run :=
  (main pchip_interpolate format_f cfg data_df limits_map).
Local Abbreviation tied := (figs_tied pchip_interpolate cfg data_df).

Ltac tied_side :=
  first [ apply Forall_nil
        | apply figs_tied_app
        | trivial_side ].

(** *** One component, when its plotting completes *)

Lemma individual_plots_done (component_name : string) (s s' : out) :
  individual_plots pchip_interpolate cfg data_df component_name s
  = (s', Done tt) ->
  report_file s' = report_file s
  /\ (((List.length (cleaned_individual data_df component_name) < 2)%nat
       /\ console s'
          = (console s ++ [skipping_message component_name])%list
       /\ saved s' = saved s)
      \/ exists interp sim_min sim_max,
           (2 <= List.length (cleaned_individual data_df component_name))%nat
           /\ individual_series pchip_interpolate data_df component_name
              = Some interp
           /\ min_max interp sim_min sim_max
           /\ console s'
              = (console s
                 ++ if snd (three_step_policy
                              (lookup component_name (manual_ylimits cfg))
                              (full_plot_y_range cfg) sim_min sim_max)
                    then [component_warning component_name] else [])%list
           /\ ((zoom_drawn cfg data_df component_name = false
                /\ saved s'
                   = (saved s
                      ++ [ {| fig_window := FullProfile;
                              fig_entity := component_name;
                              fig_ylim :=
                                fst (three_step_policy
                                       (lookup component_name
                                               (manual_ylimits cfg))
                                       (full_plot_y_range cfg)
                                       sim_min sim_max) |} ])%list)
               \/ (zoom_drawn cfg data_df component_name = true
                   /\ exists lo hi,
                        min_max (masked (fst (zoom_plot_x_range cfg))
                                        (snd (zoom_plot_x_range cfg))
                                        (time_fine data_df) interp) lo hi
                        /\ saved s'
                           = (saved s
                              ++ [ {| fig_window := FullProfile;
                                      fig_entity := component_name;
                                      fig_ylim :=
                                        fst (three_step_policy
                                               (lookup component_name
                                                       (manual_ylimits cfg))
                                               (full_plot_y_range cfg)
                                               sim_min sim_max) |};
                                   {| fig_window := ZoomedProfile;
                                      fig_entity := component_name;
                                      fig_ylim := auto_ylim lo hi |} ])%list))).
Proof.
  unfold individual_plots, zoom_drawn. cbv zeta.
  destruct (_ <? 2)%nat eqn:Hlen.
  { unfold print. intros H. injection H as <-. cbn [report_file console saved].
    split; [reflexivity|]. left. apply Nat.ltb_lt in Hlen. now repeat split. }
  apply Nat.ltb_ge in Hlen.
  unfold bind at 1.
  destruct (pchip_interpolate _ _ _) as [interp|] eqn:Eint; [|discriminate].
  cbn [of_option ret].
  unfold bind at 1. destruct (np_min interp) as [lo|] eqn:Elo; [|discriminate].
  cbn [of_option ret].
  unfold bind at 1. destruct (np_max interp) as [hi|] eqn:Ehi; [|discriminate].
  cbn [of_option ret].
  unfold bind at 1. rewrite choose_ylim_policy.
  set (pol := three_step_policy _ _ lo hi).
  set (s1 := if snd pol then fst (print (component_warning component_name) s)
             else s).
  assert (Hs1 : saved s1 = saved s /\ report_file s1 = report_file s
                /\ console s1
                   = (console s
                      ++ if snd pol then [component_warning component_name]
                         else [])%list).
  { unfold s1. destruct (snd pol); cbn [print fst saved report_file console];
      [now repeat split | now rewrite app_nil_r]. }
  destruct Hs1 as [Hsaved [Hreport Hconsole]].
  unfold bind at 1. cbn [savefig].
  destruct (zoom_plot_x_range cfg) as [t0 t1]. cbn [fst snd].
  destruct (existsb (in_window t0 t1) (time_fine data_df)) eqn:Hex;
    cbn [negb andb].
  - destruct (filter _ _) as [|r rest] eqn:Hf; cbn [map].
    + unfold ret. intros H. injection H as <-.
      cbn [report_file console saved].
      split; [exact Hreport|]. right. exists interp, lo, hi.
      split; [exact Hlen|]. split; [exact Eint|]. split; [now split|].
      split; [exact Hconsole|]. left. split; [reflexivity|].
      now rewrite Hsaved.
    + unfold bind at 1.
      destruct (np_min (masked _ _ _ _)) as [zlo|] eqn:Ezlo; [|discriminate].
      cbn [of_option ret].
      unfold bind at 1.
      destruct (np_max (masked _ _ _ _)) as [zhi|] eqn:Ezhi; [|discriminate].
      cbn [of_option ret savefig].
      intros H. injection H as <-. cbn [report_file console saved].
      split; [exact Hreport|]. right. exists interp, lo, hi.
      split; [exact Hlen|]. split; [exact Eint|]. split; [now split|].
      split; [exact Hconsole|]. right. split; [reflexivity|].
      exists zlo, zhi. split; [now split|].
      now rewrite Hsaved, <- app_assoc.
  - unfold ret. intros H. injection H as <-.
    cbn [report_file console saved].
    split; [exact Hreport|]. right. exists interp, lo, hi.
    split; [exact Hlen|]. split; [exact Eint|]. split; [now split|].
    split; [exact Hconsole|]. left. split; [reflexivity|].
    now rewrite Hsaved.
Qed.

(** *** One deck, when its plotting completes *)

Lemma deck_plots_exact (deck_name : string) (all_interp : list (list Q))
    (s s' : out) :
  deck_plots cfg data_df deck_name all_interp s = (s', Done tt) ->
  exists deck_min deck_max ylim_zoomed ylim_last,
    min_max (List.concat all_interp) deck_min deck_max
    /\ tail_tied data_df (fst (deck_zoom_plot_x_range cfg)) all_interp
                 ylim_zoomed
    /\ tail_tied data_df (fst (deck_last_orbit_plot_x_range cfg)) all_interp
                 ylim_last
    /\ saved s'
       = (saved s
          ++ [ {| fig_window := DeckFull; fig_entity := deck_name;
                  fig_ylim :=
                    fst (three_step_policy
                           (lookup deck_name (manual_ylimits cfg))
                           (deck_plot_y_range cfg) deck_min deck_max) |};
               {| fig_window := DeckZoomed; fig_entity := deck_name;
                  fig_ylim := ylim_zoomed |};
               {| fig_window := DeckLastOrbit; fig_entity := deck_name;
                  fig_ylim := ylim_last |} ])%list
    /\ console s'
       = (console s
          ++ if snd (three_step_policy
                       (lookup deck_name (manual_ylimits cfg))
                       (deck_plot_y_range cfg) deck_min deck_max)
             then [deck_warning deck_name] else [])%list
    /\ report_file s' = report_file s.
Proof.
  unfold deck_plots.
  unfold bind at 1. destruct (np_min _) as [lo|] eqn:Elo; [|discriminate].
  cbn [of_option ret].
  unfold bind at 1. destruct (np_max _) as [hi|] eqn:Ehi; [|discriminate].
  cbn [of_option ret].
  unfold bind at 1. rewrite choose_ylim_policy.
  set (pol := three_step_policy _ _ lo hi).
  set (s1 := if snd pol then fst (print (deck_warning deck_name) s) else s).
  assert (Hs1 : saved s1 = saved s /\ report_file s1 = report_file s
                /\ console s1
                   = (console s
                      ++ if snd pol then [deck_warning deck_name]
                         else [])%list).
  { unfold s1. destruct (snd pol); cbn [print fst saved report_file console];
      [now repeat split | now rewrite app_nil_r]. }
  destruct Hs1 as [Hsaved [Hreport Hconsole]].
  unfold bind at 1. cbn [savefig].
  unfold bind at 1.
  match goal with
  | |- context [tail_window_ylim data_df ?t0 all_interp ?st] =>
      destruct (tail_window_ylim data_df t0 all_interp st)
        as [s2 [y2|e]] eqn:E2; [|discriminate]
  end.
  apply tail_window_ylim_done in E2
    as [start2 [lo2 [hi2 [Hst2 [Hlo2 [Hhi2 [Hy2 ->]]]]]]].
  unfold bind at 1. cbn [savefig].
  unfold bind at 1.
  match goal with
  | |- context [tail_window_ylim data_df ?t0 all_interp ?st] =>
      destruct (tail_window_ylim data_df t0 all_interp st)
        as [s3 [y3|e]] eqn:E3; [|discriminate]
  end.
  apply tail_window_ylim_done in E3
    as [start3 [lo3 [hi3 [Hst3 [Hlo3 [Hhi3 [Hy3 ->]]]]]]].
  cbn [savefig]. intros H. injection H as <-.
  exists lo, hi, y2, y3. cbn [saved console report_file].
  split; [now split|].
  split; [exists start2, lo2, hi2; now repeat split|].
  split; [exists start3, lo3, hi3; now repeat split|].
  split; [now rewrite Hsaved, <- !app_assoc|].
  split; [exact Hconsole | exact Hreport].
Qed.

(** *** The console, whether or not the plotting completes *)

Lemma individual_plots_console (component_name : string) (s : out) :
  exists w,
    console (fst (individual_plots pchip_interpolate cfg data_df
                                   component_name s))
    = (console s ++ w)%list
    /\ (w = []
        \/ (w = [skipping_message component_name]
            /\ (List.length (cleaned_individual data_df component_name) < 2)%nat)
        \/ (w = [component_warning component_name]
            /\ exists interp sim_min sim_max,
                 individual_series pchip_interpolate data_df component_name
                 = Some interp
                 /\ min_max interp sim_min sim_max
                 /\ snd (three_step_policy
                           (lookup component_name (manual_ylimits cfg))
                           (full_plot_y_range cfg) sim_min sim_max)
                    = true)).
Proof.
  unfold individual_plots. cbv zeta.
  destruct (_ <? 2)%nat eqn:Hlen.
  { exists [skipping_message component_name]. split; [reflexivity|].
    right; left. apply Nat.ltb_lt in Hlen. now split. }
  assert (Hnone : forall e : exn,
             exists w,
               console (fst (s, @Raised unit e)) = (console s ++ w)%list
               /\ (w = []
                   \/ (w = [skipping_message component_name]
                       /\ (List.length
                             (cleaned_individual data_df component_name)
                           < 2)%nat)
                   \/ (w = [component_warning component_name]
                       /\ exists interp sim_min sim_max,
                            individual_series pchip_interpolate data_df
                                              component_name = Some interp
                            /\ min_max interp sim_min sim_max
                            /\ snd (three_step_policy
                                      (lookup component_name
                                              (manual_ylimits cfg))
                                      (full_plot_y_range cfg)
                                      sim_min sim_max) = true))).
  { intros e. exists []. cbn [fst]. rewrite app_nil_r. now split; [|left]. }
  unfold bind at 1.
  destruct (pchip_interpolate _ _ _) as [interp|] eqn:Eint;
    cbn [of_option ret raise]; [|apply Hnone].
  unfold bind at 1. destruct (np_min interp) as [lo|] eqn:Elo;
    cbn [of_option ret raise]; [|apply Hnone].
  unfold bind at 1. destruct (np_max interp) as [hi|] eqn:Ehi;
    cbn [of_option ret raise]; [|apply Hnone].
  clear Hnone.
  unfold bind at 1. rewrite choose_ylim_policy.
  set (pol := three_step_policy _ _ lo hi).
  set (s1 := if snd pol then fst (print (component_warning component_name) s)
             else s).
  exists (if snd pol then [component_warning component_name] else []).
  split.
  - assert (Hconsole : console s1
                       = (console s
                          ++ if snd pol
                             then [component_warning component_name]
                             else [])%list).
    { unfold s1. destruct (snd pol); cbn [print fst console];
        [reflexivity | now rewrite app_nil_r]. }
    rewrite <- Hconsole.
    unfold bind at 1. cbn [savefig].
    destruct (zoom_plot_x_range cfg) as [t0 t1].
    destruct (existsb _ _); cbn [negb]; [|reflexivity].
    destruct (filter _ _); cbn [map]; [reflexivity|].
    unfold bind at 1.
    destruct (np_min (masked _ _ _ _)); cbn [of_option ret raise];
      [|reflexivity].
    unfold bind at 1.
    destruct (np_max (masked _ _ _ _)); cbn [of_option ret raise];
      reflexivity.
  - destruct (snd pol) eqn:Epol; [|now left].
    right; right. split; [reflexivity|].
    exists interp, lo, hi. split; [exact Eint|]. split; [now split|].
    exact Epol.
Qed.

Lemma deck_plots_console (deck_name : string) (all_interp : list (list Q))
    (s : out) :
  exists w,
    console (fst (deck_plots cfg data_df deck_name all_interp s))
    = (console s ++ w)%list
    /\ (w = []
        \/ (w = [deck_warning deck_name]
            /\ exists deck_min deck_max,
                 min_max (List.concat all_interp) deck_min deck_max
                 /\ snd (three_step_policy
                           (lookup deck_name (manual_ylimits cfg))
                           (deck_plot_y_range cfg) deck_min deck_max)
                    = true)).
Proof.
  unfold deck_plots.
  unfold bind at 1. destruct (np_min _) as [lo|] eqn:Elo;
    cbn [of_option ret raise];
    [|exists []; cbn [fst]; rewrite app_nil_r; now split; [|left]].
  unfold bind at 1. destruct (np_max _) as [hi|] eqn:Ehi;
    cbn [of_option ret raise];
    [|exists []; cbn [fst]; rewrite app_nil_r; now split; [|left]].
  unfold bind at 1. rewrite choose_ylim_policy.
  set (pol := three_step_policy _ _ lo hi).
  set (s1 := if snd pol then fst (print (deck_warning deck_name) s) else s).
  exists (if snd pol then [deck_warning deck_name] else []).
  split.
  - assert (Hconsole : console s1
                       = (console s
                          ++ if snd pol then [deck_warning deck_name]
                             else [])%list).
    { unfold s1. destruct (snd pol); cbn [print fst console];
        [reflexivity | now rewrite app_nil_r]. }
    rewrite <- Hconsole.
    unfold bind at 1. cbn [savefig].
    unfold bind at 1.
    match goal with
    | |- context [tail_window_ylim data_df ?t0 all_interp ?st] =>
        destruct (tail_window_ylim_state data_df t0 all_interp st)
          as [Hst _];
        destruct (tail_window_ylim data_df t0 all_interp st) as [s2 [y2|e]];
        cbn [fst] in Hst; subst s2; [|reflexivity]
    end.
    unfold bind at 1. cbn [savefig].
    unfold bind at 1.
    match goal with
    | |- context [tail_window_ylim data_df ?t0 all_interp ?st] =>
        destruct (tail_window_ylim_state data_df t0 all_interp st)
          as [Hst _];
        destruct (tail_window_ylim data_df t0 all_interp st) as [s3 [y3|e]];
        cbn [fst] in Hst; subst s3; reflexivity
    end.
  - destruct (snd pol) eqn:Epol; [|now left].
    right. split; [reflexivity|].
    exists lo, hi. split; [now split | exact Epol].
Qed.

(** *** Every figure of a run *)

Lemma individual_plots_tied (component_name : string) :
  writer tied any
         (individual_plots pchip_interpolate cfg data_df component_name).
Proof.
  unfold individual_plots. cbv zeta.
  destruct (_ <? 2)%nat.
  { apply writer_print; [apply Forall_nil | exact I]. }
  apply writer_bind
    with (Post := fun v => individual_series pchip_interpolate data_df
                                             component_name = Some v);
    [apply figs_tied_app | apply writer_of_option_eq; apply Forall_nil
     | intros interp Hint].
  apply writer_bind with (Post := fun lo => np_min interp = Some lo);
    [apply figs_tied_app | apply writer_of_option_eq; apply Forall_nil
     | intros lo Hlo].
  apply writer_bind with (Post := fun hi => np_max interp = Some hi);
    [apply figs_tied_app | apply writer_of_option_eq; apply Forall_nil
     | intros hi Hhi].
  eapply writer_bind;
    [apply figs_tied_app | apply choose_ylim_writer; apply Forall_nil
     | intros ylim Hylim; cbv beta in Hylim].
  apply writer_bind with (Post := any); [apply figs_tied_app | | intros _ _].
  { apply writer_savefig; [|exact I].
    constructor; [|constructor]. unfold fig_tied. cbn.
    exists interp, lo, hi. split; [exact Hint|]. split; [now split|].
    exact Hylim. }
  destruct (zoom_plot_x_range cfg) as [t0 t1] eqn:Ez.
  destruct (negb _); [apply writer_ret; [apply Forall_nil | exact I]|].
  destruct (map snd _); [apply writer_ret; [apply Forall_nil | exact I]|].
  apply writer_bind
    with (Post := fun zlo => np_min (masked t0 t1 (time_fine data_df) interp)
                             = Some zlo);
    [apply figs_tied_app | apply writer_of_option_eq; apply Forall_nil
     | intros zlo Hzlo].
  apply writer_bind
    with (Post := fun zhi => np_max (masked t0 t1 (time_fine data_df) interp)
                             = Some zhi);
    [apply figs_tied_app | apply writer_of_option_eq; apply Forall_nil
     | intros zhi Hzhi].
  apply writer_savefig; [|exact I].
  constructor; [|constructor]. unfold fig_tied. cbn. rewrite Ez. cbn [fst snd].
  exists interp, zlo, zhi. split; [exact Hint|]. now split.
Qed.

Lemma deck_plots_tied (deck_name : string) (component_list : list string) :
  In (deck_name, component_list)
     (deck_groups (all_component_names data_df)) ->
  writer tied any
         (deck_plots cfg data_df deck_name
                     (deck_data pchip_interpolate cfg data_df
                                component_list)).
Proof.
  intros Hin. unfold deck_plots.
  set (all_interp := deck_data pchip_interpolate cfg data_df component_list).
  apply writer_bind
    with (Post := fun lo => np_min (List.concat all_interp) = Some lo);
    [apply figs_tied_app | apply writer_of_option_eq; apply Forall_nil
     | intros lo Hlo].
  apply writer_bind
    with (Post := fun hi => np_max (List.concat all_interp) = Some hi);
    [apply figs_tied_app | apply writer_of_option_eq; apply Forall_nil
     | intros hi Hhi].
  eapply writer_bind;
    [apply figs_tied_app | apply choose_ylim_writer; apply Forall_nil
     | intros ylim Hylim; cbv beta in Hylim].
  apply writer_bind with (Post := any); [apply figs_tied_app | | intros _ _].
  { apply writer_savefig; [|exact I].
    constructor; [|constructor]. unfold fig_tied. cbn.
    exists component_list, lo, hi. split; [exact Hin|]. split; [now split|].
    exact Hylim. }
  eapply writer_bind;
    [apply figs_tied_app | apply tail_window_ylim_tied; apply Forall_nil
     | intros y2 Hy2].
  apply writer_bind with (Post := any); [apply figs_tied_app | | intros _ _].
  { apply writer_savefig; [|exact I].
    constructor; [|constructor]. unfold fig_tied. cbn.
    exists component_list. now split. }
  eapply writer_bind;
    [apply figs_tied_app | apply tail_window_ylim_tied; apply Forall_nil
     | intros y3 Hy3].
  apply writer_savefig; [|exact I].
  constructor; [|constructor]. unfold fig_tied. cbn.
  exists component_list. now split.
Qed.

Lemma deck_rows_tied (component_list : list string) :
  writer tied
         (fun all_interp =>
            all_interp
            = deck_data pchip_interpolate cfg data_df component_list)
         (deck_rows pchip_interpolate format_f cfg data_df limits_map
                    component_list).
Proof.
  apply writer_strengthen.
  - unfold deck_rows, deck_member.
    writer_auto tied_side fail.
  - intros s s' a H. unfold deck_rows in H.
    apply for_acc_member_done in H as [_ [-> _]]. reflexivity.
Qed.

Lemma process_deck_tied (deck : string * list string) :
  In deck (deck_groups (all_component_names data_df)) ->
  writer tied any
         (process_deck pchip_interpolate format_f cfg data_df limits_map
                       deck).
Proof.
  destruct deck as [deck_name component_list]. intros Hin.
  unfold process_deck.
  do 6 (apply writer_bind with (Post := any);
        [apply figs_tied_app
        | first [ apply writer_print | apply writer_write ];
          [apply Forall_nil | exact I]
        | intros _ _ ]).
  eapply writer_bind;
    [apply figs_tied_app | apply deck_rows_tied
     | intros all_interp Hall; cbv beta in Hall; subst all_interp].
  apply writer_bind with (Post := any);
    [apply figs_tied_app
    | apply writer_write; [apply Forall_nil | exact I]
    | intros _ _ ].
  now apply deck_plots_tied.
Qed.

Lemma main_tied (now : string) : writer tied any (run now).
Proof.
  unfold main.
  apply writer_bind with (Post := any); [apply figs_tied_app | | intros _ _].
  { unfold individual_phase.
    writer_auto tied_side ltac:(apply individual_plots_tied). }
  apply writer_bind with (Post := any);
    [apply figs_tied_app
    | apply writer_print; [apply Forall_nil | exact I]
    | intros _ _ ].
  apply writer_bind with (Post := any); [apply figs_tied_app | | intros _ _].
  { apply writer_for_each; [apply Forall_nil | apply figs_tied_app|].
    intros chunk. apply writer_write; [apply Forall_nil | exact I]. }
  apply writer_bind with (Post := any);
    [apply figs_tied_app
    | apply writer_write; [apply Forall_nil | exact I]
    | intros _ _ ].
  apply writer_bind with (Post := any); [apply figs_tied_app | | intros _ _].
  { unfold deck_phase.
    apply writer_for_each_in; [apply Forall_nil | apply figs_tied_app|].
    intros deck Hin. now apply process_deck_tied. }
  apply writer_print; [apply Forall_nil | exact I].
Qed.


End YRanges.

